(** * AutoDiag: the scoring engine of [main.py]

    A shallow embedding of the [diagnose] and [history] endpoints of
    [src/main.py] and of the two tables they read, followed by the
    properties of the scoring engine.

    Conventions of the embedding:
    - a Python [str] is a Rocq [string], a sequence of bytes. On text of
      ASCII characters ([Text.is_ascii]) stripping, case mapping, splitting
      and slicing are those of Python; on other text they are not (bytes
      above 127 are left alone and counted one by one), so a statement that
      would not hold of the program on other text is made for ASCII text;
    - a Python [float] is an exact rational ([Q]): binary64 rounding error is
      abstracted away, [round(x, 3)] is rounding half to even on the exact
      value, which is what CPython computes on the value of the double;
    - the dict objects listed in [FAULT_CODE_MAP] live in the table itself and
      are addressed by reference, because [suggestions.extend(items)] puts
      the very objects of the table in the working list; the three fallback
      dicts are created per call and live in the call's frame;
    - the database module is not part of the embedding: [create_document]
      and [get_documents] are parameters that either return or raise. *)

From Stdlib Require Import QArith Qminmax Qabs Lqa String Ascii.
From stdpp Require Import base list strings sorting.

Open Scope Q_scope.

(** ** Text *)

Module Text.

(** [c.isspace()] on the ASCII range: tab to carriage return, the four
    separators, the blank *)
Definition is_space (c : ascii) : bool :=
  let n := N_of_ascii c in
  ((9 <=? n)%N && (n <=? 13)%N) || ((28 <=? n)%N && (n <=? 32)%N).

Definition upper_char (c : ascii) : ascii :=
  let n := N_of_ascii c in
  if ((97 <=? n)%N && (n <=? 122)%N)%bool then ascii_of_N (n - 32) else c.

Definition lower_char (c : ascii) : ascii :=
  let n := N_of_ascii c in
  if ((65 <=? n)%N && (n <=? 90)%N)%bool then ascii_of_N (n + 32) else c.

(** [s.upper()] and [s.lower()] *)
Fixpoint upper (s : string) : string :=
  match s with
  | EmptyString => EmptyString
  | String c s' => String (upper_char c) (upper s')
  end.

Fixpoint lower (s : string) : string :=
  match s with
  | EmptyString => EmptyString
  | String c s' => String (lower_char c) (lower s')
  end.

Fixpoint lstrip (s : string) : string :=
  match s with
  | EmptyString => EmptyString
  | String c s' => if is_space c then lstrip s' else s
  end.

Fixpoint rstrip (s : string) : string :=
  match s with
  | EmptyString => EmptyString
  | String c s' =>
      match rstrip s' with
      | EmptyString => if is_space c then EmptyString else String c EmptyString
      | t => String c t
      end
  end.

(** [s.strip()] *)
Definition strip (s : string) : string := rstrip (lstrip s).

(** [s[:n]] *)
Fixpoint slice_to (n : nat) (s : string) : string :=
  match n, s with
  | S n', String c s' => String c (slice_to n' s')
  | _, _ => EmptyString
  end.

(** [s.startswith(key)] *)
Definition startswith (s key : string) : bool := String.prefix key s.

(** [k in s] for strings: [k] occurs in [s] as a substring *)
Fixpoint contains (k s : string) : bool :=
  String.prefix k s ||
  match s with
  | EmptyString => false
  | String _ s' => contains k s'
  end.

(** [s.split()]: the maximal runs of non-whitespace characters; [cur] is
    the run being read, reversed *)
Fixpoint split_from (cur : list ascii) (s : string) : list string :=
  let flush := match cur with
               | [] => []
               | _ => [string_of_list_ascii (rev cur)]
               end in
  match s with
  | EmptyString => flush
  | String c s' =>
      if is_space c then flush ++ split_from [] s'
      else split_from (c :: cur) s'
  end.

Definition split (s : string) : list string := split_from [] s.

(** [s.strip()] is empty: every character of [s] is whitespace *)
Fixpoint blank (s : string) : bool :=
  match s with
  | EmptyString => true
  | String c s' => is_space c && blank s'
  end.

(** every character of [s] is an ASCII character; on such text the
    operations of this module are those of Python's [str] *)
Fixpoint is_ascii (s : string) : bool :=
  match s with
  | EmptyString => true
  | String c s' => (N_of_ascii c <? 128)%N && is_ascii s'
  end.

(** some character of [s] is whitespace *)
Fixpoint has_space (s : string) : bool :=
  match s with
  | EmptyString => false
  | String c s' => is_space c || has_space s'
  end.

(** truth value of a string: [if s:] *)
Definition truthy (s : string) : bool :=
  match s with
  | EmptyString => false
  | String _ _ => true
  end.

End Text.

(** ** Numbers *)

(** [max(0.0, min(1.0, x))] *)
Definition clamp (x : Q) : Q := Qmax 0 (Qmin 1 x).

(** the integer nearest to [x], ties to the even one *)
Definition round_half_even (x : Q) : Z :=
  let d := Z.pos (Qden x) in
  let q := (Qnum x / d)%Z in
  let r := (Qnum x mod d)%Z in
  match (2 * r ?= d)%Z with
  | Lt => q
  | Gt => (q + 1)%Z
  | Eq => if Z.even q then q else (q + 1)%Z
  end.

(** [round(x, ndigits)] *)
Definition round (x : Q) (ndigits : nat) : Q :=
  let p := Pos.pow 10 (Pos.of_nat ndigits) in
  match ndigits with
  | O => inject_Z (round_half_even x)
  | S _ => round_half_even (x * inject_Z (Z.pos p)) # p
  end.

(** [sum(xs)] *)
Definition sum (xs : list Q) : Q := fold_left Qplus xs 0.

(** ** The knowledge base *)

(** an entry of a rule, or of the fallback list: [{"part", "base", "reason"}] *)
Record Candidate := mkCandidate { part : string; base : Q; reason : string }.

(** an entry of [KEYWORD_HINTS]: [{"keywords", "part", "boost"}] *)
Record Hint := mkHint { keywords : list string; hint_part : string; boost : Q }.

(** the dict [FAULT_CODE_MAP], in insertion order *)
Abbreviation Table := (list (string * list Candidate)).

Definition FAULT_CODE_MAP : Table :=
  [ ("P030"%string,
      [ mkCandidate "Spark Plugs" 0.6 "Engine misfire detected";
        mkCandidate "Ignition Coils" 0.5 "Weak/no spark";
        mkCandidate "Fuel Injectors" 0.35 "Fuel delivery issues";
        mkCandidate "Vacuum Leak" 0.25 "Unmetered air causing lean" ]);
    ("P017"%string,
      [ mkCandidate "O2 Sensor (Upstream)" 0.5 "Fuel trim lean";
        mkCandidate "MAF Sensor" 0.45 "Airflow reading incorrect";
        mkCandidate "Vacuum Leak" 0.4 "Extra air entering intake";
        mkCandidate "Fuel Pump/Filter" 0.3 "Low fuel pressure" ]);
    ("P042"%string,
      [ mkCandidate "Catalytic Converter" 0.6 "Efficiency below threshold";
        mkCandidate "O2 Sensor (Downstream)" 0.4 "Sensor aging or slow";
        mkCandidate "Exhaust Leak" 0.25 "False oxygen readings" ]);
    ("P012"%string,
      [ mkCandidate "Throttle Position Sensor" 0.5 "TPS circuit issues";
        mkCandidate "Wiring/Connector" 0.35 "Signal interruption" ]) ].

Definition KEYWORD_HINTS : list Hint :=
  [ mkHint ["rough idle"; "shakes"; "vibration"]%string "Spark Plugs" 0.15;
    mkHint ["stalls"; "dies"; "no start"]%string "Fuel Pump" 0.2;
    mkHint ["hesitation"; "lag"; "surge"]%string "MAF Sensor" 0.12;
    mkHint ["rotten egg"; "sulfur"]%string "Catalytic Converter" 0.18;
    mkHint ["whistle"; "hiss"]%string "Vacuum Leak" 0.15 ].

(** ** Objects and references *)

(** A reference to a dict object: the [i]-th entry of the [k]-th rule of the
    table, or the [i]-th dict created by the running call. *)
Inductive ref := Shared (k i : nat) | Local (i : nat).

(** What a call of [diagnose] can reach: the module's table and its own
    fresh dicts. *)
Record store := mkStore { table : Table; frame : list Candidate }.

(** read through a reference that does not point to an object *)
Definition dangling : Candidate := mkCandidate "" 0 "".

(** the object a reference points to, if any *)
Definition lookup_ref (st : store) (r : ref) : option Candidate :=
  match r with
  | Shared k i => table st !! k ≫= λ rule, rule.2 !! i
  | Local i => frame st !! i
  end.

Definition deref (st : store) (r : ref) : Candidate :=
  default dangling (lookup_ref st r).

Definition add_base (b : Q) (c : Candidate) : Candidate :=
  mkCandidate (part c) (base c + b) (reason c).

(** [s["base"] += b] for the object [r] points to *)
Definition bump (r : ref) (b : Q) (st : store) : store :=
  match r with
  | Shared k i =>
      mkStore (alter (λ rule, (rule.1, alter (add_base b) i rule.2)) k (table st))
              (frame st)
  | Local i => mkStore (table st) (alter (add_base b) i (frame st))
  end.

(** ** Requests and responses *)

Record DiagnoseRequest := mkRequest {
  name : string;
  model : string;
  fault_code : option string;
  description : string
}.

Record Suggestion := mkSuggestion {
  sug_part : string;
  likelihood : Q;
  sug_reason : string
}.

Record DiagnoseResponse := mkResponse {
  suggestions : list Suggestion;
  response_id : option string   (* the field [id] *)
}.

(** ** The scoring engine: the body of [diagnose] up to [top] *)

(** [clean[:4] if len(clean) >= 4 else clean], on the stripped, upper-cased
    fault code *)
Definition normalize (code : string) : string :=
  let clean := Text.upper (Text.strip code) in
  if (4 <=? String.length clean)%nat then Text.slice_to 4 clean else clean.

(** [prefix]: [None] unless the fault code is a non-empty string *)
Definition prefix_of (code : option string) : option string :=
  match code with
  | Some c => if Text.truthy c then Some (normalize c) else None
  | None => None
  end.

(** the references to the entries of rule number [k] *)
Definition items (k : nat) (rule : string * list Candidate) : list ref :=
  Shared k <$> seq 0 (length rule.2).

(** the loop over [FAULT_CODE_MAP.items()]: the entries of every rule whose
    key the prefix starts with, extended in table order *)
Definition seed (tbl : Table) (prefix : option string) : list ref :=
  match prefix with
  | Some p =>
      mjoin (imap (λ k rule,
                     if Text.startswith p rule.1 then items k rule else []) tbl)
  | None => []
  end.

(** the list built when [not suggestions] *)
Definition fallback : list Candidate :=
  [ mkCandidate "Battery" 0.25 "Common electrical issue";
    mkCandidate "Alternator" 0.2 "Charging system faults";
    mkCandidate "Spark Plugs" 0.18 "Wear item, causes misfires" ].

(** the working list and the store once the candidates are settled *)
Definition candidates (tbl : Table) (prefix : option string)
  : list ref * store :=
  match seed tbl prefix with
  | [] => (Local <$> seq 0 (length fallback), mkStore tbl fallback)
  | refs => (refs, mkStore tbl [])
  end.

(** [any(k in desc for k in hint["keywords"])] *)
Definition fires (desc : string) (hint : Hint) : bool :=
  existsb (λ k, Text.contains k desc) (keywords hint).

(** [hint["part"].lower().split()[0]]; the index is in range for every entry
    of [KEYWORD_HINTS] (lemma [KEYWORD_HINTS_words]) *)
Definition first_word (hint : Hint) : string :=
  hd EmptyString (Text.split (Text.lower (hint_part hint))).

(** [s["part"].lower().startswith(...)] *)
Definition targets (hint : Hint) (c : Candidate) : bool :=
  Text.startswith (Text.lower (part c)) (first_word hint).

(** the inner loop [for s in suggestions] for one hint *)
Definition boost_all (hint : Hint) (refs : list ref) (st : store) : store :=
  fold_left (λ st s, if targets hint (deref st s) then bump s (boost hint) st
                     else st) refs st.

(** the loop [for hint in KEYWORD_HINTS], with [desc] already lower-cased *)
Definition apply_hints (hints : list Hint) (desc : string) (refs : list ref)
  (st : store) : store :=
  fold_left (λ st hint, if fires desc hint then boost_all hint refs st else st)
            hints st.

(** [sum(max(0.0, min(1.0, s["base"])) for s in suggestions)], then the guard
    [if total == 0: total = 1.0] *)
Definition total (st : store) (refs : list ref) : Q :=
  let t := sum ((λ s, clamp (base (deref st s))) <$> refs) in
  if Qeq_bool t 0 then 1 else t.

(** the suffix of every reason *)
Definition matched (prefix : option string) : string :=
  match prefix with
  | Some p => if Text.truthy p then " (matched " +:+ p +:+ ")" else ""
  | None => ""
  end.

(** the loop that fills [ranked] *)
Definition ranked (st : store) (prefix : option string) (refs : list ref)
  : list Suggestion :=
  let t := total st refs in
  (λ s, let score := clamp (base (deref st s)) / t in
        mkSuggestion (part (deref st s)) (round score 3)
                     (reason (deref st s) +:+ matched prefix)) <$> refs.

(** [ranked.sort(key=lambda x: x["likelihood"], reverse=True)]: the stable
    sort, larger likelihoods first, ties in their order of arrival *)
Fixpoint insert_desc (x : Suggestion) (l : list Suggestion) : list Suggestion :=
  match l with
  | [] => [x]
  | y :: l' =>
      if Qle_bool (likelihood y) (likelihood x) then x :: l
      else y :: insert_desc x l'
  end.

Definition sort_desc (l : list Suggestion) : list Suggestion :=
  foldr insert_desc [] l.

(** The working list and the store when the keyword loop is over. *)
Definition working (tbl : Table) (code : option string) (description : string)
  : list ref * store :=
  let '(refs, st) := candidates tbl (prefix_of code) in
  let desc := Text.lower description in
  (refs, apply_hints KEYWORD_HINTS desc refs st).

(** [ranked] before it is sorted *)
Definition scored (tbl : Table) (code : option string) (description : string)
  : list Suggestion :=
  let '(refs, st) := working tbl code description in
  ranked st (prefix_of code) refs.

(** The engine on the table [tbl]: the table as the call leaves it, and
    [top]. *)
Definition engine (tbl : Table) (code : option string) (description : string)
  : Table * list Suggestion :=
  let '(refs, st) := working tbl code description in
  let top := take 5 (sort_desc (ranked st (prefix_of code) refs)) in
  (table st, top).

(** ** The endpoints *)

(** what a call into the database module does: it returns or it raises *)
Inductive outcome (A : Type) : Type :=
| Returned (a : A)
| Raised.
Arguments Returned {A} a.
Arguments Raised {A}.

(** the document handed to [create_document] *)
Record DiagnosisRecord := mkRecord {
  rec_name : string;
  rec_model : string;
  rec_fault_code : option string;
  rec_description : string;
  rec_suggestions : list Suggestion
}.

(** the constraint [Field(..., ge=0, le=1)] that building a [Suggestion]
    checks *)
Definition validates (s : Suggestion) : bool :=
  Qle_bool 0 (likelihood s) && Qle_bool (likelihood s) 1.

Section Endpoints.

(** The state of the database and the values stored in a document. *)
Context {DB Value : Type}.

Definition Document := list (string * Value).

(** [database.create_document] and [database.get_documents] *)
Variable create_document :
  string -> DiagnosisRecord -> DB -> DB * outcome string.
Variable get_documents :
  string -> Document -> Z -> DB -> DB * outcome (list Document).
(** [str] on a stored value *)
Variable str : Value -> Value.

(** [POST /api/diagnose]. The result is [Raised] when the response model
    rejects a suggestion. *)
Definition diagnose (req : DiagnoseRequest) (tbl : Table) (db : DB)
  : Table * DB * outcome DiagnoseResponse :=
  let '(tbl, top) := engine tbl (fault_code req) (description req) in
  let '(db, saved) :=
    create_document "carissue"
      (mkRecord (name req) (model req) (fault_code req) (description req) top)
      db in
  let doc_id := match saved with
                | Returned i => Some i
                | Raised => None
                end in
  (tbl, db,
   if forallb validates top then Returned (mkResponse top doc_id) else Raised).

(** [it["_id"] = str(it["_id"])] when the key is present *)
Definition stringify_id (it : Document) : Document :=
  (λ kv, if String.eqb kv.1 "_id" then (kv.1, str kv.2) else kv) <$> it.

(** [GET /api/history]: the list under ["items"] *)
Definition history (limit : Z) (db : DB) : DB * list Document :=
  let '(db, found) := get_documents "carissue" [] limit db in
  match found with
  | Returned items => (db, stringify_id <$> items)
  | Raised => (db, [])
  end.

End Endpoints.

(** ** The status endpoint: [GET /test] *)

(** what reading [db.name] does: the attribute is missing ([hasattr] is
    false), it holds a value, or reading it raises something else than
    [AttributeError], with the text of the exception *)
Inductive attribute : Type :=
| Missing
| Holds (v : string)
| ReadRaises (msg : string).

(** the handle [db] of the database module, as far as [test_database] looks
    at it: its name, and what [db.list_collection_names()] does, the text of
    the exception or the names *)
Record Database := mkDatabase {
  db_name : attribute;
  list_collection_names : string + list string
}.

(** the dict [response] *)
Record Status := mkStatus {
  backend : string;
  database : string;
  database_url : option string;
  database_name : option string;
  connection_status : string;
  collections : list string
}.

Definition set_database (v : string) (r : Status) : Status :=
  mkStatus (backend r) v (database_url r) (database_name r)
           (connection_status r) (collections r).

Definition set_database_url (v : string) (r : Status) : Status :=
  mkStatus (backend r) (database r) (Some v) (database_name r)
           (connection_status r) (collections r).

Definition set_database_name (v : string) (r : Status) : Status :=
  mkStatus (backend r) (database r) (database_url r) (Some v)
           (connection_status r) (collections r).

Definition set_connection_status (v : string) (r : Status) : Status :=
  mkStatus (backend r) (database r) (database_url r) (database_name r)
           v (collections r).

Definition set_collections (v : list string) (r : Status) : Status :=
  mkStatus (backend r) (database r) (database_url r) (database_name r)
           (connection_status r) v.

(** truth value of [os.getenv(key)] *)
Definition env_set (getenv : string → option string) (key : string) : bool :=
  match getenv key with
  | Some v => Text.truthy v
  | None => false
  end.

(** the body of the outer [try], with its [except] *)
Definition probe (db : option Database) (response : Status) : Status :=
  match db with
  | Some d =>
      let response := set_database "✅ Available" response in
      let response := set_database_url "✅ Configured" response in
      match db_name d with
      | ReadRaises msg =>
          set_database ("❌ Error: " +:+ Text.slice_to 50 msg) response
      | found =>
          let response :=
            set_database_name
              (match found with Holds v => v | _ => "✅ Connected" end)
              response in
          let response := set_connection_status "Connected" response in
          match list_collection_names d with
          | inr names =>
              let response := set_collections (take 10 names) response in
              set_database "✅ Connected & Working" response
          | inl msg =>
              set_database
                ("⚠️  Connected but Error: " +:+ Text.slice_to 50 msg) response
          end
      end
  | None => set_database "⚠️  Available but not initialized" response
  end.

Definition test_database (db : option Database)
  (getenv : string → option string) : Status :=
  let response :=
    mkStatus "✅ Running" "❌ Not Available" None None "Not Connected" [] in
  let response := probe db response in
  let response :=
    set_database_url
      (if env_set getenv "DATABASE_URL" then "✅ Set" else "❌ Not Set")
      response in
  set_database_name
    (if env_set getenv "DATABASE_NAME" then "✅ Set" else "❌ Not Set")
    response.

(** ** Vocabulary of the statements *)

(** the rule keys of a table with the number of entries under each: what no
    call can change *)
Definition rules (tbl : Table) : list (string * nat) :=
  (λ rule, (rule.1, length rule.2)) <$> tbl.

(** a table without its base scores: the keys, with the part and the reason
    of every entry *)
Definition texts (tbl : Table) : list (string * list (string * string)) :=
  (λ rule : string * list Candidate,
     (rule.1, (λ c, (part c, reason c)) <$> rule.2)) <$> tbl.

(** the rules whose key the prefix starts with: those that contribute *)
Definition matching (tbl : Table) (p : string) : Table :=
  filter (λ rule, Text.startswith p rule.1 = true) tbl.

(** a reference that points to an object *)
Definition valid (st : store) (r : ref) : Prop := is_Some (lookup_ref st r).

(** larger likelihoods first *)
Definition descending (l : list Suggestion) : Prop :=
  ∀ i j a b, (i < j)%nat → l !! i = Some a → l !! j = Some b →
             likelihood b <= likelihood a.

(** [s.endswith(suffix)] *)
Fixpoint endswith (s suffix : string) : bool :=
  String.eqb s suffix ||
  match s with
  | EmptyString => false
  | String _ s' => endswith s' suffix
  end.

(** the boosts a candidate collects: one per hint that fires on the
    description and targets the candidate's part *)
Definition boosts (hints : list Hint) (desc : string) (c : Candidate) : Q :=
  sum (boost <$> filter (λ h, fires desc h && targets h c = true) hints).

(** the tables the running service can hold: the shipped one, and the one a
    call leaves behind *)
Inductive reachable : Table → Prop :=
| reachable_start : reachable FAULT_CODE_MAP
| reachable_call tbl code desc :
    reachable tbl → reachable (engine tbl code desc).1.

(** a fault code of ASCII characters, or none *)
Definition ascii_code (code : option string) : bool :=
  match code with
  | Some c => Text.is_ascii c
  | None => true
  end.

(** [w] is the first word of [s]: [s] is whitespace, then [w], which is not
    empty and holds no whitespace, then nothing or whitespace and more *)
Definition is_first_word (w s : string) : Prop :=
  ∃ pad rest,
    s = pad +:+ w +:+ rest
    ∧ Text.blank pad = true
    ∧ w ≠ EmptyString
    ∧ Text.has_space w = false
    ∧ match rest with
      | EmptyString => True
      | String c _ => Text.is_space c = true
      end.

(** the likelihood returned for a part, if the part is returned *)
Definition likelihood_of (p : string) (l : list Suggestion) : option Q :=
  likelihood <$> find (λ s, String.eqb (sug_part s) p) l.

(** what the inner loop does to one candidate of the working list *)
Definition hit (hint : Hint) (c : Candidate) : Candidate :=
  if targets hint c then add_base (boost hint) c else c.

(** what the whole keyword loop does to one candidate of the working list *)
Definition hits (hints : list Hint) (desc : string) (c : Candidate) : Candidate :=
  fold_left (λ c hint, if fires desc hint then hit hint c else c) hints c.

(** a description on which the hints chosen by [flags] fire and no other: the
    first keyword of each chosen hint, one per word *)
Definition description_for (flags : list bool) : string :=
  foldr (λ (fh : bool * Hint) rest,
           if fh.1 then hd EmptyString (keywords fh.2) +:+ " " +:+ rest else rest)
        EmptyString (zip flags KEYWORD_HINTS).

#[global] Instance ref_eq_dec : EqDecision ref.
Proof. solve_decision. Defined.

(** * Properties *)

(** ** Rounding and clamping *)

Section Numbers.

Implicit Types x y t : Q.

Lemma clamp_unit x : 0 <= clamp x <= 1.
Proof.
  unfold clamp.
  destruct (Q.max_spec 0 (Qmin 1 x)) as [[? ->]|[? ->]];
    destruct (Q.min_spec 1 x) as [[? E]|[? E]]; rewrite ?E in *; lra.
Qed.

(** twice the distance from [x] to its rounding is at most one *)
Lemma round_half_even_near x :
  (2 * Z.abs (round_half_even x * Z.pos (Qden x) - Qnum x) <= Z.pos (Qden x))%Z.
Proof.
  unfold round_half_even.
  pose proof (Z.div_mod (Qnum x) (Z.pos (Qden x)) ltac:(lia)).
  pose proof (Z.mod_pos_bound (Qnum x) (Z.pos (Qden x)) ltac:(lia)).
  destruct (Z.compare_spec (2 * (Qnum x mod Z.pos (Qden x))) (Z.pos (Qden x)));
    [destruct (Z.even _)|..]; lia.
Qed.

Lemma round_half_even_error x :
  Qabs (inject_Z (round_half_even x) - x) <= 1 # 2.
Proof.
  pose proof (round_half_even_near x) as H.
  destruct x as [n d]; simpl in H.
  set (z := round_half_even (n # d)) in *.
  apply Qabs_Qle_condition.
  unfold Qle, Qminus, Qplus, Qopp, inject_Z; simpl. split; lia.
Qed.

Lemma round_3_unfold x :
  round x 3 == inject_Z (round_half_even (x * 1000)) * (1 # 1000).
Proof. unfold round. simpl Pos.pow. rewrite Qmake_Qdiv. reflexivity. Qed.

(** [round(x, 3)] is within half a thousandth of [x] *)
Lemma round_3_error x : Qabs (round x 3 - x) <= 0.0005.
Proof.
  rewrite round_3_unfold.
  pose proof (round_half_even_error (x * 1000)) as H.
  apply Qabs_Qle_condition in H. apply Qabs_Qle_condition.
  set (z := inject_Z _) in *. lra.
Qed.

(** [round(x, 3)] keeps a score between 0 and 1 there *)
Lemma round_3_unit x : 0 <= x <= 1 → 0 <= round x 3 <= 1.
Proof.
  intros Hx. rewrite round_3_unfold.
  pose proof (round_half_even_error (x * 1000)) as H.
  apply Qabs_Qle_condition in H.
  set (z := round_half_even _) in *.
  assert (0 <= z <= 1000)%Z as Hz.
  { split.
    - assert (-(1 # 2) <= inject_Z z) as Hl by lra.
      unfold Qle, inject_Z in Hl; simpl in Hl. lia.
    - assert (inject_Z z <= 1000 + (1 # 2)) as Hu by lra.
      unfold Qle, inject_Z, Qplus in Hu; simpl in Hu. lia. }
  assert (0 <= inject_Z z <= 1000).
  { unfold Qle, inject_Z; simpl. lia. }
  lra.
Qed.

Lemma round_3_zero x : x == 0 → round x 3 == 0.
Proof.
  intros Hx. rewrite round_3_unfold.
  pose proof (round_half_even_error (x * 1000)) as H.
  apply Qabs_Qle_condition in H.
  set (z := round_half_even _) in *.
  assert (z = 0)%Z as ->.
  { assert (-(1 # 2) <= inject_Z z <= 1 # 2) as [Hl Hu] by lra.
    unfold Qle, inject_Z in Hl, Hu; simpl in Hl, Hu. lia. }
  reflexivity.
Qed.

End Numbers.

(** ** Sums *)

Section Sums.

Implicit Types l : list Q.

Lemma fold_left_Qplus l a : fold_left Qplus l a == a + sum l.
Proof.
  unfold sum. revert a. induction l as [|x l IH]; intros a; simpl.
  - lra.
  - rewrite IH, (IH (0 + x)). lra.
Qed.

Lemma sum_cons x l : sum (x :: l) == x + sum l.
Proof. unfold sum at 1. simpl. rewrite fold_left_Qplus. lra. Qed.

Lemma sum_nonneg l : Forall (Qle 0) l → 0 <= sum l.
Proof.
  induction 1 as [|x l Hx _ IH]; [unfold sum; simpl; lra|].
  rewrite sum_cons. lra.
Qed.

Lemma sum_member x l : Forall (Qle 0) l → x ∈ l → x <= sum l.
Proof.
  induction 1 as [|y l Hy Hl IH]; intros Hin.
  - inversion Hin.
  - rewrite sum_cons. pose proof (sum_nonneg l Hl).
    apply elem_of_cons in Hin as [->|Hin]; [lra|].
    specialize (IH Hin). lra.
Qed.

Lemma sum_Permutation l l' : l ≡ₚ l' → sum l == sum l'.
Proof.
  induction 1 as [|x l l' _ IH|x y l|l l' l'' _ IH1 _ IH2].
  - reflexivity.
  - rewrite !sum_cons, IH. reflexivity.
  - rewrite !sum_cons. lra.
  - rewrite IH1. exact IH2.
Qed.

(** dividing every term divides the sum *)
Lemma sum_div l t : sum ((λ x, x / t) <$> l) == sum l / t.
Proof.
  induction l as [|x l IH]; simpl.
  - unfold sum; simpl. unfold Qdiv. lra.
  - rewrite !sum_cons, IH. unfold Qdiv. lra.
Qed.

(** termwise errors add up *)
Lemma sum_error (A : Type) (f g : A → Q) (e : Q) (xs : list A) :
  (∀ a, a ∈ xs → Qabs (f a - g a) <= e) →
  Qabs (sum (f <$> xs) - sum (g <$> xs)) <= inject_Z (Z.of_nat (length xs)) * e.
Proof.
  induction xs as [|a xs IH]; intros Hall.
  - change (Qabs (0 - 0) <= 0 * e). apply Qabs_Qle_condition. lra.
  - cbn [fmap list_fmap length]. rewrite !sum_cons.
    pose proof (Hall a ltac:(left)) as Ha.
    pose proof (IH (λ b Hb, Hall b ltac:(right; exact Hb))) as Hs.
    apply Qabs_Qle_condition in Ha, Hs. apply Qabs_Qle_condition.
    rewrite Nat2Z.inj_succ, <- Z.add_1_r, inject_Z_plus.
    set (n := inject_Z (Z.of_nat (length xs))) in *.
    assert ((n + inject_Z 1) * e == n * e + e) as -> by ring.
    lra.
Qed.

Lemma sum_all_zero l : Forall (Qle 0) l → sum l == 0 → Forall (Qeq 0) l.
Proof.
  induction 1 as [|x l Hx Hl IH]; intros Hs; [constructor|].
  rewrite sum_cons in Hs. pose proof (sum_nonneg l Hl).
  constructor; [lra|]. apply IH. lra.
Qed.

End Sums.

(** ** The stable sort *)

Section Sorting.

Implicit Types l : list Suggestion.

Lemma insert_desc_Permutation x l : insert_desc x l ≡ₚ x :: l.
Proof.
  induction l as [|y l IH]; simpl; [done|].
  destruct (Qle_bool _ _); [done|].
  rewrite IH. apply Permutation_swap.
Qed.

Lemma sort_desc_Permutation l : sort_desc l ≡ₚ l.
Proof.
  induction l as [|x l IH]; simpl; [done|].
  rewrite insert_desc_Permutation. by f_equiv.
Qed.

Lemma sort_desc_length l : length (sort_desc l) = length l.
Proof. by rewrite sort_desc_Permutation. Qed.

Lemma insert_desc_sorted x l :
  StronglySorted (λ a b, likelihood b <= likelihood a) l →
  StronglySorted (λ a b, likelihood b <= likelihood a) (insert_desc x l).
Proof.
  induction 1 as [|y l Hl IH Hy]; simpl.
  - repeat constructor.
  - destruct (Qle_bool (likelihood y) (likelihood x)) eqn:E.
    + apply Qle_bool_iff in E. repeat constructor; try done.
      eapply Forall_impl; [exact Hy|]. simpl. intros z ?. lra.
    + assert (¬ likelihood y <= likelihood x) as Hlt.
      { intros H. apply Qle_bool_iff in H. congruence. }
      constructor; [done|].
      rewrite insert_desc_Permutation. constructor; [lra|done].
Qed.

Lemma sort_desc_sorted l :
  StronglySorted (λ a b, likelihood b <= likelihood a) (sort_desc l).
Proof.
  induction l; simpl; [constructor|]. by apply insert_desc_sorted.
Qed.

Lemma StronglySorted_descending l :
  StronglySorted (λ a b, likelihood b <= likelihood a) l → descending l.
Proof.
  induction 1 as [|x l Hl IH Hx]; intros i j a b Hij Ha Hb.
  - by rewrite lookup_nil in Ha.
  - destruct j as [|j]; [lia|]. simpl in Hb. destruct i as [|i]; simpl in Ha.
    + injection Ha as <-. rewrite Forall_forall in Hx.
      apply Hx. by eapply list_elem_of_lookup_2.
    + eapply (IH i j); [lia|done..].
Qed.

Lemma descending_take n l : descending l → descending (take n l).
Proof.
  intros Hl i j a b Hij Ha Hb.
  apply lookup_take_Some in Ha as [Ha _], Hb as [Hb _].
  by eapply Hl.
Qed.

(** ties keep their order of arrival: the suggestions of any given
    likelihood come out in the order they went in *)
Lemma insert_desc_stable (q : Q) x l :
  List.filter (λ s, Qeq_bool (likelihood s) q) (insert_desc x l)
  = List.filter (λ s, Qeq_bool (likelihood s) q) (x :: l).
Proof.
  induction l as [|y l IH]; [done|]. cbn [insert_desc].
  destruct (Qle_bool (likelihood y) (likelihood x)) eqn:E; [done|].
  cbn [List.filter] in *. rewrite IH.
  destruct (Qeq_bool (likelihood x) q) eqn:Ex; [|done].
  destruct (Qeq_bool (likelihood y) q) eqn:Ey; [|done].
  apply Qeq_bool_iff in Ex, Ey.
  assert (likelihood y <= likelihood x) as Hle by (rewrite Ex, Ey; lra).
  apply Qle_bool_iff in Hle. congruence.
Qed.

Lemma sort_desc_stable (q : Q) l :
  List.filter (λ s, Qeq_bool (likelihood s) q) (sort_desc l)
  = List.filter (λ s, Qeq_bool (likelihood s) q) l.
Proof.
  induction l as [|x l IH]; [done|].
  change (sort_desc (x :: l)) with (insert_desc x (sort_desc l)).
  rewrite insert_desc_stable. cbn [List.filter]. by rewrite IH.
Qed.

(** the sort looks at the likelihoods only *)
Lemma sort_desc_fmap (f : Suggestion → Suggestion) l :
  (∀ s, likelihood (f s) = likelihood s) →
  sort_desc (f <$> l) = f <$> sort_desc l.
Proof.
  intros Hf. induction l as [|x l IH]; [done|].
  change (insert_desc (f x) (sort_desc (f <$> l))
          = f <$> insert_desc x (sort_desc l)).
  rewrite IH. generalize (sort_desc l). intros k.
  induction k as [|y k IHk]; [done|].
  rewrite fmap_cons. cbn [insert_desc]. rewrite !Hf.
  destruct (Qle_bool _ _); [done|]. by rewrite fmap_cons, IHk.
Qed.

End Sorting.

(** ** References and the keyword loop *)

Section Store.

Implicit Types (st : store) (r s : ref) (c : Candidate) (tbl : Table).

Lemma lookup_bump s b st r :
  lookup_ref (bump s b st) r =
  if decide (s = r) then add_base b <$> lookup_ref st r else lookup_ref st r.
Proof.
  destruct s as [k i|i], r as [k' i'|i'];
    cbn [lookup_ref bump table frame]; try done.
  - rewrite list_lookup_alter.
    destruct (decide (k = k')) as [<-|]; [|by rewrite decide_False by congruence].
    destruct (table st !! k) as [rule|]; [|by destruct (decide _)].
    cbn [fmap option_fmap option_map mbind option_bind snd].
    rewrite list_lookup_alter.
    destruct (decide (i = i')) as [<-|].
    + by rewrite decide_True.
    + by rewrite decide_False by congruence.
  - rewrite list_lookup_alter.
    destruct (decide (i = i')) as [<-|].
    + by rewrite decide_True.
    + by rewrite decide_False by congruence.
Qed.

Lemma rules_bump s b st : rules (table (bump s b st)) = rules (table st).
Proof.
  destruct s as [k i|i]; simpl; [|done]. unfold rules.
  rewrite (list_fmap_alter _ _ id); [by rewrite list_alter_id|].
  apply Forall_forall. intros rule _. simpl. by rewrite length_alter.
Qed.

(** one hint: every object of the working list is hit once, nothing else
    is touched *)
Lemma boost_all_lookup hint refs st r :
  NoDup refs →
  lookup_ref (boost_all hint refs st) r =
  if decide (r ∈ refs) then hit hint <$> lookup_ref st r else lookup_ref st r.
Proof.
  unfold boost_all. intros Hnd. revert st.
  induction Hnd as [|s refs Hs Hnd IH]; intros st; cbn [fold_left].
  - case_decide as H; [by apply elem_of_nil in H|done].
  - rewrite IH. clear IH.
    assert (lookup_ref
              (if targets hint (deref st s) then bump s (boost hint) st else st) r
            = if decide (s = r) then hit hint <$> lookup_ref st r
              else lookup_ref st r) as ->.
    { unfold deref, hit. destruct (decide (s = r)) as [<-|].
      - destruct (targets hint _) eqn:E.
        + rewrite lookup_bump, decide_True by done.
          destruct (lookup_ref st s); simpl in *; [by rewrite E|done].
        + destruct (lookup_ref st s); simpl in *; [by rewrite E|done].
      - destruct (targets hint _); [|done].
        by rewrite lookup_bump, decide_False. }
    destruct (decide (s = r)) as [<-|Hne].
    + rewrite decide_False by done. by rewrite decide_True by left.
    + destruct (decide (r ∈ refs)).
      * by rewrite decide_True by (by right).
      * rewrite decide_False; [done|]. rewrite elem_of_cons. intros [?|?]; done.
Qed.

Lemma rules_boost_all hint refs st :
  rules (table (boost_all hint refs st)) = rules (table st).
Proof.
  unfold boost_all. revert st. induction refs as [|s refs IH]; intros st; simpl.
  - done.
  - rewrite IH. destruct (targets _ _); [apply rules_bump|done].
Qed.

(** the whole loop: every object of the working list collects the hits of
    the hints that fire, nothing else is touched *)
Lemma apply_hints_lookup hints desc refs st r :
  NoDup refs →
  lookup_ref (apply_hints hints desc refs st) r =
  if decide (r ∈ refs) then hits hints desc <$> lookup_ref st r
  else lookup_ref st r.
Proof.
  unfold apply_hints, hits. intros Hnd. revert st.
  induction hints as [|hint hints IH]; intros st; simpl.
  - destruct (decide _); [|done]. by destruct (lookup_ref st r).
  - rewrite IH. destruct (fires desc hint); [|done].
    rewrite boost_all_lookup by done.
    destruct (decide _); [|done]. by destruct (lookup_ref st r).
Qed.

Lemma rules_apply_hints hints desc refs st :
  rules (table (apply_hints hints desc refs st)) = rules (table st).
Proof.
  unfold apply_hints. revert st.
  induction hints as [|hint hints IH]; intros st; simpl; [done|].
  rewrite IH. destruct (fires _ _); [apply rules_boost_all|done].
Qed.

Lemma texts_bump s b st : texts (table (bump s b st)) = texts (table st).
Proof.
  destruct s as [k i|i]; simpl; [|done]. unfold texts.
  rewrite (list_fmap_alter _ _ id); [by rewrite list_alter_id|].
  apply Forall_forall. intros rule _. simpl. f_equal.
  rewrite (list_fmap_alter _ _ id); [by rewrite list_alter_id|].
  by apply Forall_forall.
Qed.

Lemma texts_boost_all hint refs st :
  texts (table (boost_all hint refs st)) = texts (table st).
Proof.
  unfold boost_all. revert st. induction refs as [|s refs IH]; intros st; simpl.
  - done.
  - rewrite IH. destruct (targets _ _); [apply texts_bump|done].
Qed.

Lemma texts_apply_hints hints desc refs st :
  texts (table (apply_hints hints desc refs st)) = texts (table st).
Proof.
  unfold apply_hints. revert st.
  induction hints as [|hint hints IH]; intros st; simpl; [done|].
  rewrite IH. destruct (fires _ _); [apply texts_boost_all|done].
Qed.

(** the hits leave the texts alone and add the boosts up *)
Lemma hits_text hints desc c :
  part (hits hints desc c) = part c ∧ reason (hits hints desc c) = reason c.
Proof.
  unfold hits. revert c. induction hints as [|hint hints IH]; intros c; simpl.
  - done.
  - destruct (IH (if fires desc hint then hit hint c else c)) as [-> ->].
    destruct (fires desc hint); [|done]. unfold hit. by destruct (targets hint c).
Qed.

Lemma boosts_cons hint hints desc c :
  boosts (hint :: hints) desc c ==
  (if fires desc hint && targets hint c then boost hint else 0)
  + boosts hints desc c.
Proof.
  unfold boosts. rewrite filter_cons.
  destruct (fires desc hint && targets hint c).
  - rewrite decide_True by done. apply sum_cons.
  - rewrite decide_False by done. lra.
Qed.

Lemma boosts_ext hints desc c c' :
  part c = part c' → boosts hints desc c = boosts hints desc c'.
Proof.
  intros Hp. unfold boosts. do 2 f_equal.
  apply list_filter_iff. intros h. unfold targets. by rewrite Hp.
Qed.

Lemma hits_base hints desc c :
  base (hits hints desc c) == base c + boosts hints desc c.
Proof.
  unfold hits. revert c. induction hints as [|hint hints IH]; intros c; simpl.
  - unfold boosts, sum. simpl. lra.
  - rewrite IH, boosts_cons. unfold hit.
    destruct (fires desc hint), (targets hint c) eqn:E; simpl.
    + rewrite (boosts_ext _ _ (add_base (boost hint) c) c) by done. lra.
    + lra.
    + lra.
    + lra.
Qed.

End Store.

(** ** Seeding *)

Section Seeding.

Implicit Types (tbl : Table) (p : string) (r : ref).

Lemma startswith_slice p key :
  Text.startswith p key = String.eqb (Text.slice_to (String.length key) p) key.
Proof.
  unfold Text.startswith. revert p.
  induction key as [|a key IH]; intros [|b p]; simpl; try done.
  rewrite IH. destruct (ascii_dec a b) as [->|Hne].
  - by rewrite Ascii.eqb_refl.
  - destruct (Ascii.eqb_spec b a); [congruence|done].
Qed.

Lemma elem_of_seed tbl p r :
  r ∈ seed tbl (Some p) →
  ∃ k i rule, r = Shared k i ∧ tbl !! k = Some rule
              ∧ (i < length rule.2)%nat ∧ Text.startswith p rule.1 = true.
Proof.
  unfold seed. rewrite list_elem_of_join. intros (l & Hr & Hl).
  apply elem_of_lookup_imap in Hl as (k & rule & -> & Hk).
  destruct (Text.startswith p rule.1) eqn:E; [|by apply elem_of_nil in Hr].
  unfold items in Hr. apply list_elem_of_fmap in Hr as (i & -> & Hi).
  apply elem_of_seq in Hi. exists k, i, rule. repeat split; [done|lia|done].
Qed.

Lemma seed_valid tbl p fr r : r ∈ seed tbl (Some p) → valid (mkStore tbl fr) r.
Proof.
  intros (k & i & rule & -> & Hk & Hi & _)%elem_of_seed.
  unfold valid. simpl. rewrite Hk. simpl. by apply lookup_lt_is_Some.
Qed.

(** the same, with the rules numbered from [n] *)
Lemma seed_from_NoDup p n tbl :
  NoDup (mjoin (imap (λ k rule, if Text.startswith p rule.1
                                then items (n + k) rule else []) tbl)).
Proof.
  revert n. induction tbl as [|rule tbl IH]; intros n; [constructor|].
  rewrite imap_cons. cbn [mjoin list_join].
  rewrite (imap_ext _ (λ k rule, if Text.startswith p rule.1
                                 then items (S n + k) rule else [])); last first.
  { intros k rule' _. simpl. by rewrite Nat.add_succ_r. }
  apply NoDup_app. split_and!; [|intros r Hr Hr'|apply IH].
  - destruct (Text.startswith _ _); [|constructor].
    apply NoDup_fmap_2; [|apply NoDup_seq]. by intros ?? [=].
  - destruct (Text.startswith _ _); [|by apply elem_of_nil in Hr].
    apply list_elem_of_fmap in Hr as (i & -> & _).
    apply list_elem_of_join in Hr' as (l & Hr' & Hl).
    apply elem_of_lookup_imap in Hl as (k & rule' & -> & _).
    destruct (Text.startswith _ _); [|by apply elem_of_nil in Hr'].
    apply list_elem_of_fmap in Hr' as (i' & [=] & _). lia.
Qed.

Lemma seed_NoDup tbl prefix : NoDup (seed tbl prefix).
Proof. destruct prefix; [apply (seed_from_NoDup _ 0)|constructor]. Qed.

(** the working list depends on the keys and the sizes of the rules only *)
Lemma seed_rules tbl tbl' prefix :
  rules tbl = rules tbl' → seed tbl prefix = seed tbl' prefix.
Proof.
  intros Hr. destruct prefix as [p|]; [|done]. unfold seed. f_equal.
  transitivity (imap (λ k (kn : string * nat),
                        if Text.startswith p kn.1
                        then Shared k <$> seq 0 kn.2 else []) (rules tbl)).
  - unfold rules. by rewrite imap_fmap.
  - rewrite Hr. unfold rules. by rewrite imap_fmap.
Qed.

Lemma candidates_settled tbl prefix :
  ∀ refs st, candidates tbl prefix = (refs, st) →
    refs ≠ [] ∧ NoDup refs ∧ Forall (valid st) refs ∧ table st = tbl
    ∧ (seed tbl prefix = [] → refs = Local <$> seq 0 3 ∧ frame st = fallback)
    ∧ (seed tbl prefix ≠ [] → refs = seed tbl prefix).
Proof.
  intros refs st. unfold candidates.
  destruct (seed tbl prefix) as [|r refs'] eqn:E; intros [= <- <-].
  - split_and!; try done.
    + compute_done.
    + repeat constructor; by eexists.
  - split_and!; try done.
    + rewrite <- E. apply seed_NoDup.
    + apply Forall_forall. intros r' Hr'. rewrite <- E in Hr'.
      destruct prefix as [p|]; [by eapply seed_valid|by apply elem_of_nil in Hr'].
Qed.

End Seeding.

(** ** Normalisation *)

Section Ranking.

Implicit Types (st : store) (refs : list ref) (prefix : option string).

(** the sum of the clamped scores, before the guard against zero *)
Local Abbreviation raw st refs := (sum ((λ s, clamp (base (deref st s))) <$> refs)).

Lemma raw_nonneg st refs : 0 <= raw st refs.
Proof.
  apply sum_nonneg, Forall_fmap, Forall_forall. intros r _. apply clamp_unit.
Qed.

Lemma total_raw st refs : ¬ raw st refs == 0 → total st refs = raw st refs.
Proof.
  intros Hne. unfold total. destruct (Qeq_bool _ 0) eqn:E; [|done].
  by apply Qeq_bool_iff in E.
Qed.

Lemma total_guard st refs : raw st refs == 0 → total st refs = 1.
Proof.
  intros He. unfold total. destruct (Qeq_bool _ 0) eqn:E; [done|].
  apply Qeq_bool_iff in He. congruence.
Qed.

(** the divisor is positive and no clamped score exceeds it *)
Lemma total_bounds st refs :
  0 < total st refs
  ∧ ∀ r, r ∈ refs → clamp (base (deref st r)) <= total st refs.
Proof.
  pose proof (raw_nonneg st refs) as Hnn.
  assert (∀ r, r ∈ refs → clamp (base (deref st r)) <= raw st refs) as Hmem.
  { intros r Hr. apply sum_member.
    - apply Forall_fmap, Forall_forall. intros ? _. apply clamp_unit.
    - apply list_elem_of_fmap. by exists r. }
  unfold total. destruct (Qeq_bool _ 0) eqn:E.
  - apply Qeq_bool_iff in E. split; [lra|]. intros r Hr.
    specialize (Hmem r Hr). lra.
  - assert (¬ raw st refs == 0) as Hne.
    { intros H. apply Qeq_bool_iff in H. congruence. }
    split; [lra|done].
Qed.

Lemma ranked_length st prefix refs :
  length (ranked st prefix refs) = length refs.
Proof. unfold ranked. by rewrite length_fmap. Qed.

Lemma ranked_likelihood st prefix refs :
  likelihood <$> ranked st prefix refs
  = (λ s, round (clamp (base (deref st s)) / total st refs) 3) <$> refs.
Proof. unfold ranked. by rewrite <- list_fmap_compose. Qed.

Lemma score_unit st refs r :
  r ∈ refs → 0 <= clamp (base (deref st r)) / total st refs <= 1.
Proof.
  intros Hr. destruct (total_bounds st refs) as [Hpos Hle].
  specialize (Hle r Hr). pose proof (clamp_unit (base (deref st r))).
  split.
  - apply Qle_shift_div_l; [done|]. lra.
  - apply Qle_shift_div_r; [done|]. lra.
Qed.

(** every likelihood lies between 0 and 1 *)
Lemma ranked_unit st prefix refs :
  Forall (λ s, 0 <= likelihood s <= 1) (ranked st prefix refs).
Proof.
  apply Forall_fmap, Forall_forall. intros r Hr. simpl.
  by apply round_3_unit, score_unit.
Qed.

(** the likelihoods add up to one, within half a thousandth each *)
Lemma ranked_sum st prefix refs :
  ¬ raw st refs == 0 →
  Qabs (sum (likelihood <$> ranked st prefix refs) - 1)
  <= inject_Z (Z.of_nat (length refs)) * 0.0005.
Proof.
  intros Hne. rewrite ranked_likelihood, (total_raw _ _ Hne).
  pose proof (sum_error ref
                (λ s, round (clamp (base (deref st s)) / raw st refs) 3)
                (λ s, clamp (base (deref st s)) / raw st refs)
                0.0005 refs (λ r _, round_3_error _)) as H.
  assert (sum ((λ s, clamp (base (deref st s)) / raw st refs) <$> refs) == 1)
    as Hone.
  { assert ((λ s, clamp (base (deref st s)) / raw st refs) <$> refs
            = (λ x, x / raw st refs) <$> ((λ s, clamp (base (deref st s))) <$> refs))
      as -> by (by rewrite <- list_fmap_compose).
    rewrite sum_div. by apply Qmult_inv_r. }
  rewrite Hone in H. exact H.
Qed.

(** the degenerate case: every likelihood is zero *)
Lemma ranked_zero st prefix refs :
  raw st refs == 0 →
  Forall (λ s, likelihood s == 0) (ranked st prefix refs).
Proof.
  intros He. apply Forall_fmap, Forall_forall. intros r Hr. simpl.
  apply round_3_zero. rewrite (total_guard _ _ He).
  assert (Forall (Qeq 0) ((λ s, clamp (base (deref st s))) <$> refs)) as Hz.
  { apply sum_all_zero; [|done].
    apply Forall_fmap, Forall_forall. intros ? _. apply clamp_unit. }
  rewrite Forall_fmap, Forall_forall in Hz. specialize (Hz r Hr). simpl in Hz.
  rewrite <- Hz. reflexivity.
Qed.

End Ranking.

(** ** The engine as a whole *)

Section Engine.

Implicit Types (tbl : Table) (code : option string) (desc : string).

Lemma working_unfold tbl code desc :
  working tbl code desc =
  ((candidates tbl (prefix_of code)).1,
   apply_hints KEYWORD_HINTS (Text.lower desc)
     (candidates tbl (prefix_of code)).1 (candidates tbl (prefix_of code)).2).
Proof. unfold working. by destruct (candidates _ _). Qed.

Lemma engine_unfold tbl code desc :
  engine tbl code desc =
  (table (working tbl code desc).2,
   take 5 (sort_desc (scored tbl code desc))).
Proof. unfold engine, scored. by destruct (working _ _ _). Qed.

Lemma scored_unfold tbl code desc :
  scored tbl code desc =
  ranked (working tbl code desc).2 (prefix_of code) (working tbl code desc).1.
Proof. unfold scored. by destruct (working _ _ _). Qed.

(** what the keyword loop leaves of a candidate of the working list *)
Lemma working_lookup tbl code desc r :
  r ∈ (candidates tbl (prefix_of code)).1 →
  lookup_ref (working tbl code desc).2 r
  = hits KEYWORD_HINTS (Text.lower desc)
      <$> lookup_ref (candidates tbl (prefix_of code)).2 r.
Proof.
  intros Hr. rewrite working_unfold.
  destruct (candidates tbl (prefix_of code)) as [refs st] eqn:E.
  cbn [fst snd] in *. apply candidates_settled in E as (_ & Hnd & _).
  by rewrite apply_hints_lookup, decide_True.
Qed.

Lemma working_deref tbl code desc r :
  r ∈ (candidates tbl (prefix_of code)).1 →
  deref (working tbl code desc).2 r
  = hits KEYWORD_HINTS (Text.lower desc)
      (deref (candidates tbl (prefix_of code)).2 r).
Proof.
  intros Hr. unfold deref. rewrite working_lookup by done.
  destruct (candidates tbl (prefix_of code)) as [refs st] eqn:E.
  apply candidates_settled in E as (_ & _ & Hv & _). cbn [fst snd] in *.
  rewrite Forall_forall in Hv. by destruct (Hv r Hr) as [c ->].
Qed.

Lemma working_nonempty tbl code desc : (working tbl code desc).1 ≠ [].
Proof.
  rewrite working_unfold. cbn [fst].
  destruct (candidates tbl (prefix_of code)) as [refs st] eqn:E.
  by apply candidates_settled in E as (? & _).
Qed.

(** no call changes the keys of the table or the sizes of its rules *)
Lemma engine_rules tbl code desc : rules (engine tbl code desc).1 = rules tbl.
Proof.
  rewrite engine_unfold, working_unfold. cbn [fst snd].
  rewrite rules_apply_hints.
  destruct (candidates tbl (prefix_of code)) as [refs st] eqn:E.
  cbn [fst snd]. by apply candidates_settled in E as (_ & _ & _ & -> & _).
Qed.

(** a call changes nothing in the table but base scores *)
Lemma engine_texts tbl code desc : texts (engine tbl code desc).1 = texts tbl.
Proof.
  rewrite engine_unfold, working_unfold. cbn [fst snd].
  rewrite texts_apply_hints.
  destruct (candidates tbl (prefix_of code)) as [refs st] eqn:E.
  cbn [fst snd]. by apply candidates_settled in E as (_ & _ & _ & -> & _).
Qed.

(** the description matters through the hints that fire only *)
Lemma apply_hints_ext hints d d' refs st :
  fires d <$> hints = fires d' <$> hints →
  apply_hints hints d refs st = apply_hints hints d' refs st.
Proof.
  unfold apply_hints. revert st.
  induction hints as [|h hints IH]; intros st H; [done|].
  rewrite !fmap_cons in H. injection H as Hh Hs.
  cbn [fold_left]. rewrite Hh. by apply IH.
Qed.

Lemma working_ext tbl code d d' :
  fires (Text.lower d) <$> KEYWORD_HINTS = fires (Text.lower d') <$> KEYWORD_HINTS →
  working tbl code d = working tbl code d'.
Proof.
  intros H. unfold working.
  destruct (candidates tbl (prefix_of code)) as [refs st].
  by rewrite (apply_hints_ext _ _ _ _ _ H).
Qed.

Lemma engine_ext tbl code d d' :
  fires (Text.lower d) <$> KEYWORD_HINTS = fires (Text.lower d') <$> KEYWORD_HINTS →
  engine tbl code d = engine tbl code d'.
Proof. intros H. unfold engine. by rewrite (working_ext _ _ _ _ H). Qed.

Lemma fires_description_for (flags : list bool) :
  length flags = length KEYWORD_HINTS →
  fires (Text.lower (description_for flags)) <$> KEYWORD_HINTS = flags.
Proof.
  destruct flags as [|b1 [|b2 [|b3 [|b4 [|b5 [|]]]]]]; try done. intros _.
  by destruct b1, b2, b3, b4, b5; vm_compute.
Qed.

(** every description behaves like one of the 32 representatives *)
Lemma working_description_for tbl code d :
  working tbl code d
  = working tbl code (description_for (fires (Text.lower d) <$> KEYWORD_HINTS)).
Proof.
  apply working_ext. by rewrite fires_description_for by by rewrite length_fmap.
Qed.

Lemma engine_description_for tbl code d :
  engine tbl code d
  = engine tbl code (description_for (fires (Text.lower d) <$> KEYWORD_HINTS)).
Proof.
  apply engine_ext. by rewrite fires_description_for by by rewrite length_fmap.
Qed.

(** [split()[0]] never raises on the shipped hints *)
Lemma KEYWORD_HINTS_words :
  Forall (λ hint, Text.split (Text.lower (hint_part hint)) ≠ []) KEYWORD_HINTS.
Proof. by repeat constructor. Qed.

(** every table the service can hold has the shipped keys and sizes *)
Lemma reachable_rules tbl : reachable tbl → rules tbl = rules FAULT_CODE_MAP.
Proof. induction 1 as [|tbl code desc _ IH]; [done|]. by rewrite engine_rules. Qed.

End Engine.

(** ** The shipped rules *)

Section Shipped.

Implicit Types (tbl : Table) (code : option string) (desc : string).

(** case analysis on which shipped key, if any, the string [q] is *)
Ltac key_cases q :=
  repeat match goal with
         | |- context [String.eqb q ?k] =>
             destruct (String.eqb_spec q k) as [->|]
         end.

(** a table with the shipped keys and sizes seeds nothing or the entries
    of exactly one rule *)
Lemma seed_shipped tbl prefix :
  rules tbl = rules FAULT_CODE_MAP →
  seed tbl prefix ∈ [] :: imap items FAULT_CODE_MAP.
Proof.
  intros Hr. rewrite (seed_rules _ _ _ Hr).
  destruct prefix as [p|]; [|left].
  unfold seed, FAULT_CODE_MAP. cbn [imap fst snd mjoin list_join compose].
  rewrite !startswith_slice. cbn [String.length].
  generalize (Text.slice_to 4 p). intros q. key_cases q; compute_done.
Qed.

Lemma matching_shipped tbl p :
  rules tbl = rules FAULT_CODE_MAP → (length (matching tbl p) ≤ 1)%nat.
Proof.
  destruct tbl as [|[k0 i0] [|[k1 i1] [|[k2 i2] [|[k3 i3] [|]]]]]; try done.
  intros [= -> _ -> _ -> _ -> _]. unfold matching.
  rewrite !filter_cons, filter_nil. cbn [fst].
  rewrite !startswith_slice. cbn [String.length].
  generalize (Text.slice_to 4 p). intros q.
  key_cases q; repeat case_decide; try done; simpl; lia.
Qed.

Lemma working_shipped tbl code desc :
  rules tbl = rules FAULT_CODE_MAP →
  (length (working tbl code desc).1 ≤ 4)%nat.
Proof.
  intros Hr. rewrite working_unfold. cbn [fst].
  pose proof (seed_shipped tbl (prefix_of code) Hr) as Hs.
  unfold candidates. destruct (seed tbl (prefix_of code)); [simpl; lia|].
  cbn [fst]. revert Hs. generalize (r :: l). intros refs Hs.
  repeat (apply elem_of_cons in Hs as [->|Hs]; [simpl; lia|]).
  by apply elem_of_nil in Hs.
Qed.

(** with at most five candidates the truncation keeps them all *)
Lemma engine_keeps_all tbl code desc :
  rules tbl = rules FAULT_CODE_MAP →
  (engine tbl code desc).2 = sort_desc (scored tbl code desc).
Proof.
  intros Hr. rewrite engine_unfold. cbn [snd]. apply take_ge.
  rewrite sort_desc_length, scored_unfold, ranked_length.
  pose proof (working_shipped tbl code desc Hr). lia.
Qed.

End Shipped.

(** ** What the engine returns, what it leaves behind *)

Section Results.

Implicit Types (tbl : Table) (code : option string) (desc : string).

Lemma app_empty_r (s : string) : s +:+ "" = s.
Proof.
  induction s as [|a s IH]; [done|].
  change (String a (s +:+ "") = String a s). by rewrite IH.
Qed.

Lemma endswith_app (s suffix : string) : endswith (s +:+ suffix) suffix = true.
Proof.
  induction s as [|a s IH].
  - change ("" +:+ suffix) with suffix.
    destruct suffix; simpl; by rewrite ?Ascii.eqb_refl, ?String.eqb_refl.
  - change (String a s +:+ suffix) with (String a (s +:+ suffix)).
    cbn [endswith]. rewrite IH. apply orb_true_r.
Qed.

(** what holds of every ranked suggestion holds of every returned one *)
Lemma engine_Forall (P : Suggestion → Prop) tbl code desc :
  Forall P (scored tbl code desc) → Forall P (engine tbl code desc).2.
Proof.
  intros H. rewrite engine_unfold. cbn [snd].
  apply Forall_take. by rewrite sort_desc_Permutation.
Qed.

Lemma engine_length tbl code desc :
  (1 ≤ length (engine tbl code desc).2 ≤ 5)%nat.
Proof.
  rewrite engine_unfold, scored_unfold. cbn [snd].
  rewrite length_take, sort_desc_length, ranked_length.
  pose proof (working_nonempty tbl code desc).
  destruct (working tbl code desc).1; [done|]. cbn [length]. lia.
Qed.

Lemma engine_unit tbl code desc :
  Forall (λ s, 0 <= likelihood s <= 1) (engine tbl code desc).2.
Proof. apply engine_Forall. rewrite scored_unfold. apply ranked_unit. Qed.

Lemma engine_descending tbl code desc : descending (engine tbl code desc).2.
Proof.
  rewrite engine_unfold. cbn [snd].
  apply descending_take, StronglySorted_descending, sort_desc_sorted.
Qed.

(** every ranked suggestion carries the part of a candidate and its
    reason, followed by the suffix *)
Lemma scored_texts tbl code desc :
  Forall (λ s, ∃ r, r ∈ (candidates tbl (prefix_of code)).1
                    ∧ sug_part s = part (deref (candidates tbl (prefix_of code)).2 r)
                    ∧ sug_reason s
                      = reason (deref (candidates tbl (prefix_of code)).2 r)
                        +:+ matched (prefix_of code))
         (scored tbl code desc).
Proof.
  rewrite scored_unfold. unfold ranked.
  apply Forall_fmap, Forall_forall. intros r Hr. simpl.
  assert (r ∈ (candidates tbl (prefix_of code)).1) as Hr'.
  { by rewrite working_unfold in Hr. }
  exists r. rewrite (working_deref _ _ _ _ Hr').
  by destruct (hits_text KEYWORD_HINTS (Text.lower desc)
                 (deref (candidates tbl (prefix_of code)).2 r)) as [-> ->].
Qed.

(** objects of the frame are the only ones touched when the working list
    is the fallback list *)
Lemma table_boost_all_local hint (locals : list nat) st :
  table (boost_all hint (Local <$> locals) st) = table st.
Proof.
  unfold boost_all. revert st.
  induction locals as [|i locals IH]; intros st; [done|].
  rewrite fmap_cons. cbn [fold_left]. rewrite IH.
  by destruct (targets _ _).
Qed.

Lemma table_apply_hints_local hints desc (locals : list nat) st :
  table (apply_hints hints desc (Local <$> locals) st) = table st.
Proof.
  unfold apply_hints. revert st.
  induction hints as [|h hints IH]; intros st; [done|].
  cbn [fold_left]. rewrite IH.
  destruct (fires _ _); [apply table_boost_all_local|done].
Qed.

(** a call that falls back on the default list leaves the table as it
    found it *)
Lemma engine_fallback_frame tbl code desc :
  seed tbl (prefix_of code) = [] → (engine tbl code desc).1 = tbl.
Proof.
  intros Hs. rewrite engine_unfold, working_unfold. cbn [fst snd].
  unfold candidates. rewrite Hs. cbn [fst snd].
  apply table_apply_hints_local.
Qed.

(** no keyword occurs: no hint fires *)
Lemma fires_quiet desc (hints : list Hint) :
  Forall (λ h, Forall (λ k, Text.contains k desc = false) (keywords h)) hints →
  fires desc <$> hints = (λ _, false) <$> hints.
Proof.
  intros Hq. apply list_fmap_ext. intros i h Hh.
  eapply Forall_forall in Hq; [|by eapply list_elem_of_lookup_2].
  clear i Hh.
  unfold fires. induction Hq as [|k ks Hk _ IH]; [done|].
  cbn [existsb]. by rewrite Hk, IH.
Qed.

(** a call on which no hint fires leaves the table as it found it *)
Lemma engine_quiet_frame tbl code desc :
  Forall (λ h, fires (Text.lower desc) h = false) KEYWORD_HINTS →
  (engine tbl code desc).1 = tbl.
Proof.
  intros Hq. rewrite engine_unfold, working_unfold. cbn [fst snd].
  destruct (candidates tbl (prefix_of code)) as [refs st] eqn:E.
  apply candidates_settled in E as (_ & _ & _ & <- & _). cbn [fst snd].
  unfold apply_hints. revert st.
  induction Hq as [|h hints Hh _ IH]; intros st; [done|].
  cbn [fold_left]. rewrite Hh. apply IH.
Qed.

(** with the fallback list, the texts returned are those of the list *)
Lemma fallback_texts tbl code desc :
  seed tbl (prefix_of code) = [] →
  Forall (λ s, ∃ c, c ∈ fallback ∧ sug_part s = part c
                    ∧ sug_reason s = reason c +:+ matched (prefix_of code))
         (engine tbl code desc).2.
Proof.
  intros Hs. apply engine_Forall.
  eapply Forall_impl; [apply scored_texts|]. cbn beta.
  unfold candidates. rewrite Hs. cbn [fst snd].
  intros s (r & Hr & Hp & Hrs).
  apply list_elem_of_fmap in Hr as (i & -> & Hi). apply elem_of_seq in Hi.
  exists (deref (mkStore tbl fallback) (Local i)). split; [|done].
  destruct (lookup_lt_is_Some_2 fallback i) as [c Hc]; [lia|].
  unfold deref. cbn [lookup_ref frame]. rewrite Hc.
  by eapply list_elem_of_lookup_2.
Qed.

(** the prefix is empty exactly when the fault code is blank *)
Lemma lstrip_blank (s : string) : Text.blank s = true → Text.lstrip s = "".
Proof.
  induction s as [|c s IH]; [done|]. cbn [Text.blank Text.lstrip].
  intros [-> ?]%andb_true_iff. by apply IH.
Qed.

Lemma lstrip_not_blank (s : string) :
  Text.blank s = false →
  ∃ c t, Text.lstrip s = String c t ∧ Text.is_space c = false.
Proof.
  induction s as [|c s IH]; [done|]. cbn [Text.blank Text.lstrip].
  destruct (Text.is_space c) eqn:E; [exact IH|]. intros _. by exists c, s.
Qed.

Lemma normalize_blank (c : string) : Text.blank c = true → normalize c = "".
Proof.
  intros Hb. unfold normalize, Text.strip. by rewrite (lstrip_blank _ Hb).
Qed.

Lemma normalize_not_blank (c : string) :
  Text.blank c = false → Text.truthy (normalize c) = true.
Proof.
  intros (a & t & E & Ha)%lstrip_not_blank.
  unfold normalize, Text.strip. rewrite E. cbn [Text.rstrip]. rewrite Ha.
  destruct (Text.rstrip t); cbn [Text.upper]; by destruct (4 <=? _)%nat.
Qed.

Lemma prefix_of_not_blank (c : string) :
  Text.blank c = false → prefix_of (Some c) = Some (normalize c).
Proof. intros Hb. unfold prefix_of. by destruct c. Qed.

End Results.

(** ** Words *)

Section Words.

Lemma split_from_pad (pad s : string) :
  Text.blank pad = true →
  Text.split_from [] (pad +:+ s) = Text.split_from [] s.
Proof.
  induction pad as [|c pad IH]; [done|]. cbn [Text.blank].
  intros [Hc Hp]%andb_true_iff.
  change (String c pad +:+ s) with (String c (pad +:+ s)).
  cbn [Text.split_from]. rewrite Hc. by apply IH.
Qed.

Lemma split_from_word (cur : list ascii) (w rest : string) :
  Text.has_space w = false →
  Text.split_from cur (w +:+ rest)
  = Text.split_from (rev (list_ascii_of_string w) ++ cur) rest.
Proof.
  revert cur. induction w as [|c w IH]; intros cur; [done|].
  cbn [Text.has_space]. intros [Hc Hw]%orb_false_iff.
  change (String c w +:+ rest) with (String c (w +:+ rest)).
  cbn [Text.split_from]. rewrite Hc, (IH _ Hw).
  cbn [list_ascii_of_string rev]. by rewrite <- app_assoc.
Qed.

(** [s.split()[0]] is the first word of [s] *)
Lemma split_first_word (w s : string) :
  is_first_word w s → hd EmptyString (Text.split s) = w.
Proof.
  intros (pad & rest & -> & Hpad & Hne & Hw & Hrest). unfold Text.split.
  rewrite (split_from_pad _ _ Hpad), (split_from_word _ _ _ Hw), app_nil_r.
  assert (rev (list_ascii_of_string w) ≠ []) as Hcur.
  { destruct w as [|c w]; [done|]. cbn [list_ascii_of_string rev].
    intros H. by apply app_eq_nil in H as [_ ?]. }
  assert (string_of_list_ascii (rev (rev (list_ascii_of_string w))) = w) as Hs.
  { by rewrite rev_involutive, string_of_list_ascii_of_string. }
  destruct rest as [|c rest]; cbn [Text.split_from].
  - by destruct (rev (list_ascii_of_string w)).
  - rewrite Hrest. by destruct (rev (list_ascii_of_string w)).
Qed.

(** the first words of the shipped hints *)
Lemma KEYWORD_HINTS_first_words :
  Forall (λ hint, is_first_word (first_word hint) (Text.lower (hint_part hint)))
         KEYWORD_HINTS.
Proof.
  repeat constructor.
  - by exists ""%string, " plugs"%string.
  - by exists ""%string, " pump"%string.
  - by exists ""%string, " sensor"%string.
  - by exists ""%string, " converter"%string.
  - by exists ""%string, " leak"%string.
Qed.

End Words.

(** * The claims of the specification *)

(** C1 (the code falls short of the claim). Two calls with the same fault code
    and description do not return the same suggestions: the first call adds
    the boost to the entry of the table itself, and the second call starts
    from the boosted score. *)
Theorem C1_second_call_differs :
  let code := Some "P0300"%string in
  let first := engine FAULT_CODE_MAP code "rough idle" in
  let second := engine first.1 code "rough idle" in
  likelihood <$> first.2 = [0.405; 0.270; 0.189; 0.135]
  ∧ likelihood <$> second.2 = [0.450; 0.250; 0.175; 0.125]
  ∧ first.2 ≠ second.2.
Proof. split_and!; [by vm_compute..|]. intros H. by vm_compute in H. Qed.

(** C2 (the code falls short of the claim). The working list holds the
    entries of the table, not copies: after a call on which a hint fires, the
    base score of Spark Plugs under P030 in the table is 0.75 and no longer
    0.6. *)
Theorem C2_table_mutated :
  let after := (engine FAULT_CODE_MAP (Some "P0300"%string) "rough idle").1 in
  base (deref (mkStore FAULT_CODE_MAP []) (Shared 0 0)) == 0.6
  ∧ base (deref (mkStore after []) (Shared 0 0)) == 0.75
  ∧ after ≠ FAULT_CODE_MAP.
Proof. split_and!; [by vm_compute..|]. intros H. by vm_compute in H. Qed.

(** C3. Output shape and ordering. Whatever the fault code (absent or any
    string), the description and the state of the table, the engine returns
    between one and five suggestions, every likelihood lies between 0 and 1,
    and the suggestions come in descending order of likelihood. *)
Theorem C3_output_shape (tbl : Table) (code : option string) (desc : string) :
  let top := (engine tbl code desc).2 in
  (1 ≤ length top ≤ 5)%nat
  ∧ Forall (λ s, 0 <= likelihood s <= 1) top
  ∧ descending top.
Proof.
  split_and!.
  - apply engine_length.
  - apply engine_length.
  - apply engine_unit.
  - apply engine_descending.
Qed.

(** C4. Normalisation. On a table with the shipped rules (whatever its base
    scores), the returned likelihoods add up to 1 within half a thousandth
    per suggestion, unless the clamped scores add up to 0: then the divisor is
    1 and every returned likelihood is 0. *)
Theorem C4_normalised (tbl : Table) (code : option string) (desc : string) :
  rules tbl = rules FAULT_CODE_MAP →
  let refs := (working tbl code desc).1 in
  let st := (working tbl code desc).2 in
  let top := (engine tbl code desc).2 in
  let clamped := sum ((λ s, clamp (base (deref st s))) <$> refs) in
  (¬ clamped == 0 →
     Qabs (sum (likelihood <$> top) - 1)
     <= inject_Z (Z.of_nat (length top)) * 0.0005)
  ∧ (clamped == 0 →
       total st refs = 1 ∧ Forall (λ s, likelihood s == 0) top).
Proof.
  intros Hr. cbv zeta. rewrite (engine_keeps_all _ _ _ Hr), scored_unfold.
  split.
  - intros Hne.
    rewrite (sum_Permutation _ _ (fmap_Permutation likelihood _ _
                                    (sort_desc_Permutation _))).
    rewrite sort_desc_length, ranked_length. by apply ranked_sum.
  - intros He. split; [by apply total_guard|].
    rewrite sort_desc_Permutation. by apply ranked_zero.
Qed.

Lemma C4_normalised_witness :
  let zeroed : Table :=
    (λ rule : string * list Candidate,
       (rule.1, (λ c, mkCandidate (part c) 0 (reason c)) <$> rule.2))
      <$> FAULT_CODE_MAP in
  (rules FAULT_CODE_MAP = rules FAULT_CODE_MAP
   ∧ Qabs (sum (likelihood
                  <$> (engine FAULT_CODE_MAP (Some "P0171"%string)
                         "hesitation and a hiss").2) - 1)
     <= 4 * 0.0005)
  ∧ (rules zeroed = rules FAULT_CODE_MAP
     ∧ Forall (λ s, likelihood s == 0)
              (engine zeroed (Some "P0121"%string) "will not idle").2).
Proof.
  intros zeroed. split; (split; [reflexivity|]).
  - refine (proj1 (C4_normalised FAULT_CODE_MAP (Some "P0171"%string)
                     "hesitation and a hiss" eq_refl) _).
    vm_compute. discriminate.
  - refine (proj2 (proj2 (C4_normalised zeroed (Some "P0121"%string)
                            "will not idle" eq_refl) _)).
    reflexivity.
Defined.

(** C5. Keyword boosting, on ASCII text, where the text operations of the
    model are those of Python. The word a hint is compared by is the first
    word of its lower-cased part: spark, fuel, maf, catalytic, vacuum for the
    shipped hints. On a table with the shipped parts, every candidate of the
    working list keeps its part and its reason through the keyword loop, and
    its base score grows by the boosts of all the hints of which a keyword
    occurs in the lower-cased description and whose first word starts the
    lower-cased part: the boosts accumulate. In particular, for fault code
    P0300 on the shipped table, a description in which the keyword rough idle
    occurs gives Spark Plugs a base score larger by 0.15, and a larger
    likelihood, than a description on which the first hint does not fire and
    the other hints fire alike; and a description in which stalls occurs
    raises Fuel Injectors from 0.35 to 0.55, since the hint for Fuel Pump is
    compared by the word fuel. *)
Theorem C5_keyword_boost :
  (∀ (hint : Hint) (w : string),
     is_first_word w (Text.lower (hint_part hint)) → first_word hint = w)
  ∧ Forall (λ hint, is_first_word (first_word hint) (Text.lower (hint_part hint)))
           KEYWORD_HINTS
  ∧ first_word <$> KEYWORD_HINTS
    = ["spark"; "fuel"; "maf"; "catalytic"; "vacuum"]%string
  ∧ (∀ (tbl : Table) (code : option string) (desc : string) (r : ref),
       texts tbl = texts FAULT_CODE_MAP →
       ascii_code code = true →
       Text.is_ascii desc = true →
       r ∈ (candidates tbl (prefix_of code)).1 →
       let before := deref (candidates tbl (prefix_of code)).2 r in
       let after := deref (working tbl code desc).2 r in
       (working tbl code desc).1 = (candidates tbl (prefix_of code)).1
       ∧ part after = part before
       ∧ reason after = reason before
       ∧ base after
         == base before
            + sum (boost
                     <$> filter
                           (λ h, existsb (λ k, Text.contains k (Text.lower desc))
                                         (keywords h)
                                 && Text.startswith (Text.lower (part before))
                                                    (first_word h) = true)
                           KEYWORD_HINTS))
  ∧ (∀ d d' : string,
       Text.is_ascii d = true →
       Text.is_ascii d' = true →
       Text.contains "rough idle" (Text.lower d) = true →
       Forall (λ k, Text.contains k (Text.lower d') = false)
              ["rough idle"; "shakes"; "vibration"]%string →
       fires (Text.lower d) <$> drop 1 KEYWORD_HINTS
       = fires (Text.lower d') <$> drop 1 KEYWORD_HINTS →
       let code := Some "P0300"%string in
       let spark_plugs := Shared 0 0 in
       part (deref (working FAULT_CODE_MAP code d).2 spark_plugs) = "Spark Plugs"%string
       ∧ base (deref (working FAULT_CODE_MAP code d).2 spark_plugs)
         == base (deref (working FAULT_CODE_MAP code d').2 spark_plugs) + 0.15
       ∧ ∃ x x',
           likelihood_of "Spark Plugs" (engine FAULT_CODE_MAP code d).2 = Some x
           ∧ likelihood_of "Spark Plugs" (engine FAULT_CODE_MAP code d').2 = Some x'
           ∧ x' < x)
  ∧ (∀ d : string,
       Text.is_ascii d = true →
       Text.contains "stalls" (Text.lower d) = true →
       let fuel_injectors := Shared 0 2 in
       part (deref (working FAULT_CODE_MAP (Some "P0300"%string) d).2 fuel_injectors)
       = "Fuel Injectors"%string
       ∧ base (deref (working FAULT_CODE_MAP (Some "P0300"%string) d).2
                     fuel_injectors)
         == 0.55).
Proof.
  split_and!.
  - intros hint w Hw. by apply split_first_word.
  - apply KEYWORD_HINTS_first_words.
  - reflexivity.
  - intros tbl code desc r _ _ _ Hr. cbv zeta. split_and!.
    + by rewrite working_unfold.
    + rewrite working_deref by done. apply hits_text.
    + rewrite working_deref by done. apply hits_text.
    + rewrite working_deref by done. apply hits_base.
  - intros d d' _ _ Hk Hq Hsame. cbv zeta.
    rewrite (working_description_for _ _ d), (working_description_for _ _ d'),
      (engine_description_for _ _ d), (engine_description_for _ _ d').
    unfold KEYWORD_HINTS in *. cbn [fmap list_fmap drop] in *.
    injection Hsame as -> -> -> ->.
    assert (fires (Text.lower d)
              (mkHint ["rough idle"; "shakes"; "vibration"]%string "Spark Plugs" 0.15)
            = true) as ->.
    { unfold fires. cbn [existsb keywords]. by rewrite Hk. }
    assert (fires (Text.lower d')
              (mkHint ["rough idle"; "shakes"; "vibration"]%string "Spark Plugs" 0.15)
            = false) as ->.
    { unfold fires. cbn [existsb keywords].
      by repeat (apply Forall_cons in Hq as [-> Hq]). }
    generalize (fires (Text.lower d')
                  (mkHint ["stalls"; "dies"; "no start"]%string "Fuel Pump" 0.2)),
               (fires (Text.lower d')
                  (mkHint ["hesitation"; "lag"; "surge"]%string "MAF Sensor" 0.12)),
               (fires (Text.lower d')
                  (mkHint ["rotten egg"; "sulfur"]%string "Catalytic Converter" 0.18)),
               (fires (Text.lower d')
                  (mkHint ["whistle"; "hiss"]%string "Vacuum Leak" 0.15)).
    intros b2 b3 b4 b5.
    destruct b2, b3, b4, b5;
      (split_and!; [by vm_compute..|eexists _, _; split_and!; by vm_compute]).
  - intros d _ Hk. cbv zeta. rewrite (working_description_for _ _ d).
    unfold KEYWORD_HINTS. cbn [fmap list_fmap].
    assert (fires (Text.lower d)
              (mkHint ["stalls"; "dies"; "no start"]%string "Fuel Pump" 0.2)
            = true) as ->.
    { unfold fires. cbn [existsb keywords]. by rewrite Hk. }
    generalize (fires (Text.lower d)
                  (mkHint ["rough idle"; "shakes"; "vibration"]%string
                          "Spark Plugs" 0.15)),
               (fires (Text.lower d)
                  (mkHint ["hesitation"; "lag"; "surge"]%string "MAF Sensor" 0.12)),
               (fires (Text.lower d)
                  (mkHint ["rotten egg"; "sulfur"]%string "Catalytic Converter" 0.18)),
               (fires (Text.lower d)
                  (mkHint ["whistle"; "hiss"]%string "Vacuum Leak" 0.15)).
    intros b1 b3 b4 b5. destruct b1, b3, b4, b5; split; by vm_compute.
Qed.

Lemma C5_keyword_boost_witness :
  (Text.is_ascii "Rough idle when cold" = true
   ∧ Text.is_ascii "Runs badly when cold" = true
   ∧ Text.contains "rough idle" (Text.lower "Rough idle when cold") = true
   ∧ Forall (λ k, Text.contains k (Text.lower "Runs badly when cold") = false)
            ["rough idle"; "shakes"; "vibration"]%string)
  ∧ (∃ x x',
       likelihood_of "Spark Plugs"
         (engine FAULT_CODE_MAP (Some "P0300"%string) "Rough idle when cold").2
       = Some x
       ∧ likelihood_of "Spark Plugs"
           (engine FAULT_CODE_MAP (Some "P0300"%string) "Runs badly when cold").2
         = Some x'
       ∧ x' < x)
  ∧ (Text.is_ascii "It stalls at lights" = true
     ∧ Text.contains "stalls" (Text.lower "It stalls at lights") = true)
  ∧ base (deref (working FAULT_CODE_MAP (Some "P0300"%string)
                   "It stalls at lights").2 (Shared 0 2))
    == 0.55.
Proof.
  assert (Text.contains "rough idle" (Text.lower "Rough idle when cold") = true)
    as H1 by reflexivity.
  assert (Forall (λ k, Text.contains k (Text.lower "Runs badly when cold") = false)
                 ["rough idle"; "shakes"; "vibration"]%string)
    as H2 by (repeat constructor).
  destruct C5_keyword_boost as (_ & _ & _ & _ & Hspark & Hfuel).
  split; [by repeat split|]. split; [|split; [by split|]].
  - exact (proj2 (proj2 (Hspark "Rough idle when cold"%string
                           "Runs badly when cold"%string
                           eq_refl eq_refl H1 H2 eq_refl))).
  - exact (proj2 (Hfuel "It stalls at lights"%string eq_refl eq_refl)).
Defined.

(** C6, as stated, fails: for the description of the specification the
    likelihood of Spark Plugs is 0.286, which is not 0.288 to three
    decimals. *)
Lemma C6_spark_plugs_not_288 :
  ∃ x, likelihood_of "Spark Plugs" (engine FAULT_CODE_MAP None "car makes noise").2
       = Some x
       ∧ x == 0.286
       ∧ ¬ Qabs (x - 0.288) <= 0.0005.
Proof.
  eexists. split_and!; [by vm_compute..|]. intros H. by vm_compute in H.
Qed.

(** C6, amended. Without a fault code and with a description of ASCII
    characters in which no keyword occurs (on ASCII text the lower-casing of
    the model is that of Python), the engine returns exactly Battery 0.397,
    Alternator 0.317
    and Spark Plugs 0.286, in this order, and leaves the table alone; the
    three likelihoods are the base scores 0.25, 0.2 and 0.18 divided by their
    sum 0.63 and rounded to three decimals, and the first two are 0.40 and
    0.32 to two decimals. *)
Theorem C6_fallback_values (tbl : Table) (desc : string) :
  Text.is_ascii desc = true →
  Forall (λ h, Forall (λ k, Text.contains k (Text.lower desc) = false) (keywords h))
         KEYWORD_HINTS →
  engine tbl None desc
  = (tbl, [ mkSuggestion "Battery" 0.397 "Common electrical issue";
            mkSuggestion "Alternator" 0.317 "Charging system faults";
            mkSuggestion "Spark Plugs" 0.286 "Wear item, causes misfires" ])
  ∧ sum (base <$> fallback) == 0.63
  ∧ round (0.25 / 0.63) 3 == 0.397
  ∧ round (0.2 / 0.63) 3 == 0.317
  ∧ round (0.18 / 0.63) 3 == 0.286
  ∧ Qabs (0.397 - 0.40) <= 0.005
  ∧ Qabs (0.317 - 0.32) <= 0.005.
Proof.
  intros _ Hq. split; [|by vm_compute].
  rewrite (engine_ext _ _ desc "").
  - reflexivity.
  - by rewrite (fires_quiet _ _ Hq).
Qed.

Lemma C6_fallback_values_witness :
  Text.is_ascii "car makes noise" = true
  ∧ Forall (λ h, Forall (λ k, Text.contains k (Text.lower "car makes noise") = false)
                      (keywords h))
         KEYWORD_HINTS
  ∧ (engine FAULT_CODE_MAP None "car makes noise").2
    = [ mkSuggestion "Battery" 0.397 "Common electrical issue";
        mkSuggestion "Alternator" 0.317 "Charging system faults";
        mkSuggestion "Spark Plugs" 0.286 "Wear item, causes misfires" ].
Proof.
  assert (Forall (λ h, Forall (λ k, Text.contains k (Text.lower "car makes noise")
                                    = false) (keywords h))
                 KEYWORD_HINTS) as H by (repeat constructor).
  split; [reflexivity|]. split; [exact H|].
  exact (f_equal snd (proj1 (C6_fallback_values FAULT_CODE_MAP "car makes noise"
                               eq_refl H))).
Defined.

(** C7, as stated, fails: a fault code made of a blank is a non-empty string
    and its prefix is the empty string, not null, yet no returned reason
    carries the suffix. *)
Lemma C7_blank_code_unannotated :
  let code := Some " "%string in
  let top := (engine FAULT_CODE_MAP code "car makes noise").2 in
  Text.truthy " " = true
  ∧ prefix_of code = Some ""%string
  ∧ top ≠ []
  ∧ Forall (λ s, endswith (sug_reason s) (" (matched " +:+ "" +:+ ")") = false) top.
Proof. split_and!; [by vm_compute..|]. vm_compute. by repeat constructor. Qed.

(** C7, amended. When the fault code, of ASCII characters (on which the
    stripping and upper-casing of the model are those of Python), holds a
    character that is not whitespace, its prefix is not empty and every
    returned reason is the reason of a candidate followed by the suffix made
    of the prefix, so it ends with that suffix; this covers the fallback
    candidates when no rule matched. When the fault code is absent, empty or
    blank, every returned reason is the reason of a candidate as it
    stands. *)
Theorem C7_reason_annotation (tbl : Table) (code : option string) (desc : string) :
  let refs := (candidates tbl (prefix_of code)).1 in
  let before := (candidates tbl (prefix_of code)).2 in
  let top := (engine tbl code desc).2 in
  (∀ c, code = Some c → Text.is_ascii c = true → Text.blank c = false →
     let suffix := " (matched " +:+ normalize c +:+ ")" in
     normalize c ≠ ""%string
     ∧ Forall (λ s, endswith (sug_reason s) suffix = true
                    ∧ ∃ r, r ∈ refs
                           ∧ sug_reason s = reason (deref before r) +:+ suffix) top
     ∧ (seed tbl (prefix_of code) = [] →
        Forall (λ s, ∃ f, f ∈ fallback ∧ sug_part s = part f
                          ∧ sug_reason s = reason f +:+ suffix) top))
  ∧ ((code = None ∨ ∃ c, code = Some c ∧ Text.blank c = true) →
     Forall (λ s, ∃ r, r ∈ refs ∧ sug_reason s = reason (deref before r)) top).
Proof.
  cbv zeta. split.
  - intros c -> _ Hb.
    pose proof (normalize_not_blank c Hb) as Ht.
    assert (matched (prefix_of (Some c)) = " (matched " +:+ normalize c +:+ ")")
      as Hm.
    { rewrite (prefix_of_not_blank c Hb). unfold matched. by rewrite Ht. }
    split_and!.
    + intros E. by rewrite E in Ht.
    + apply engine_Forall.
      eapply Forall_impl; [apply scored_texts|]. cbn beta.
      intros s (r & Hr & _ & Hs). rewrite Hm in Hs. split.
      * rewrite Hs. apply endswith_app.
      * by exists r.
    + intros Hs. rewrite <- Hm. by apply fallback_texts.
  - intros Hc.
    assert (matched (prefix_of code) = ""%string) as Hm.
    { destruct Hc as [->|(c & -> & Hb)]; [done|].
      unfold prefix_of. destruct (Text.truthy c); [|done].
      unfold matched. by rewrite (normalize_blank c Hb). }
    apply engine_Forall.
    eapply Forall_impl; [apply scored_texts|]. cbn beta.
    intros s (r & Hr & _ & Hs). rewrite Hm, app_empty_r in Hs. by exists r.
Qed.

Lemma C7_reason_annotation_witness :
  Text.is_ascii " p0301" = true
  ∧ Text.blank " p0301" = false
  ∧ Forall (λ s, endswith (sug_reason s) " (matched P030)" = true)
           (engine FAULT_CODE_MAP (Some " p0301"%string) "engine shakes").2.
Proof.
  split; [reflexivity|]. split; [reflexivity|].
  eapply Forall_impl.
  - exact (proj1 (proj2 (proj1 (C7_reason_annotation FAULT_CODE_MAP
                                  (Some " p0301"%string) "engine shakes")
                           " p0301"%string eq_refl eq_refl eq_refl))).
  - intros s [H _]. exact H.
Defined.

(** ** Persistence *)

(** the response model accepts what the engine returns *)
Lemma engine_validates (tbl : Table) (code : option string) (desc : string) :
  forallb validates (engine tbl code desc).2 = true.
Proof.
  apply forallb_forall. intros s Hs%list_elem_of_In.
  pose proof (engine_unit tbl code desc) as Hu.
  rewrite Forall_forall in Hu. destruct (Hu s Hs) as [Hl Hh].
  unfold validates. apply andb_true_iff. by rewrite !Qle_bool_iff.
Qed.

Section Persistence.

Context {DB Value : Type}.
Variable create_document :
  string -> DiagnosisRecord -> DB -> DB * outcome string.
Variable get_documents :
  string -> list (string * Value) -> Z -> DB
  -> DB * outcome (list (list (string * Value))).
Variable str : Value -> Value.

(** C8. Failing persistence. When [create_document] raises, the diagnose
    endpoint still returns the suggestions of the engine as they are, with a
    null id; when [get_documents] raises, the history endpoint returns the
    empty list of items. *)
Theorem C8_persistence_failure
  (req : DiagnoseRequest) (tbl : Table) (db : DB) (limit : Z) :
  let top := (engine tbl (fault_code req) (description req)).2 in
  let record :=
    mkRecord (name req) (model req) (fault_code req) (description req) top in
  ((create_document "carissue" record db).2 = Raised →
     (diagnose create_document req tbl db).2 = Returned (mkResponse top None))
  ∧ ((get_documents "carissue" [] limit db).2 = Raised →
       (history get_documents str limit db).2 = []).
Proof.
  cbv zeta. split.
  - intros Hc. unfold diagnose.
    pose proof (engine_validates tbl (fault_code req) (description req)) as Hv.
    destruct (engine tbl (fault_code req) (description req)) as [tbl' top].
    cbn [snd] in *. destruct (create_document _ _ db) as [db' saved].
    cbn [snd] in *. by rewrite Hc, Hv.
  - intros Hg. unfold history.
    destruct (get_documents _ _ limit db) as [db' found].
    cbn [snd] in *. by rewrite Hg.
Qed.

End Persistence.

Lemma C8_persistence_failure_witness :
  let down (db : unit) := (db, @Raised string) in
  let gone (db : unit) := (db, @Raised (list (list (string * string)))) in
  let req := mkRequest "Toyota" "Camry 2015" None "car makes noise" in
  (diagnose (λ _ _, down) req FAULT_CODE_MAP ()).2
  = Returned (mkResponse
                (engine FAULT_CODE_MAP (fault_code req) (description req)).2 None)
  ∧ (history (λ _ _ _, gone) (λ v, v) 20 ()).2 = [].
Proof.
  cbv zeta.
  pose proof (C8_persistence_failure (DB := unit) (Value := string)
                (λ _ _ db, (db, Raised)) (λ _ _ _ db, (db, Raised)) (λ v, v)
                (mkRequest "Toyota" "Camry 2015" None "car makes noise")
                FAULT_CODE_MAP () 20) as [H1 H2].
  split; [exact (H1 eq_refl)|exact (H2 eq_refl)].
Defined.

(** C9. The empty fault code. An empty string leaves the prefix null as an
    absent code does, the loop over the rules is skipped, the fallback list
    becomes the working list, the call returns what it returns without a
    fault code and leaves the table alone, and every returned part and reason
    is a part and reason of the fallback list, with no suffix. *)
Theorem C9_empty_code (tbl : Table) (desc : string) :
  prefix_of (Some ""%string) = None
  ∧ seed tbl (prefix_of (Some ""%string)) = []
  ∧ candidates tbl (prefix_of (Some ""%string))
    = (Local <$> seq 0 3, mkStore tbl fallback)
  ∧ engine tbl (Some ""%string) desc = engine tbl None desc
  ∧ (engine tbl (Some ""%string) desc).1 = tbl
  ∧ Forall (λ s, ∃ f, f ∈ fallback ∧ sug_part s = part f
                      ∧ sug_reason s = reason f)
           (engine tbl (Some ""%string) desc).2.
Proof.
  split_and!; try done.
  - by apply engine_fallback_frame.
  - eapply Forall_impl; [by apply fallback_texts|]. cbn beta.
    intros s (f & Hf & Hp & Hs). exists f.
    change (matched (prefix_of (Some ""%string))) with ""%string in Hs.
    by rewrite app_empty_r in Hs.
Qed.

(** C10. One rule at most. On a table with the shipped rules, the keys have
    four characters each and differ, at most one rule matches any prefix, the
    working list holds at most 4 entries before the fallback, and the
    truncation to five discards nothing: what is returned is the whole ranked
    list, sorted. *)
Theorem C10_single_rule (tbl : Table) (code : option string) (desc : string) :
  rules tbl = rules FAULT_CODE_MAP →
  Forall (λ rule, String.length rule.1 = 4%nat) tbl
  ∧ NoDup (fst <$> tbl)
  ∧ (∀ p, length (matching tbl p) ≤ 1)%nat
  ∧ seed tbl (prefix_of code) ∈ [] :: imap items FAULT_CODE_MAP
  ∧ (length (seed tbl (prefix_of code)) ≤ 4)%nat
  ∧ (engine tbl code desc).2 = sort_desc (scored tbl code desc)
  ∧ (engine tbl code desc).2 ≡ₚ scored tbl code desc.
Proof.
  intros Hr. pose proof (seed_shipped tbl (prefix_of code) Hr) as Hs.
  assert (fst <$> tbl = fst <$> FAULT_CODE_MAP) as Hk.
  { apply (f_equal (fmap fst)) in Hr. unfold rules in Hr.
    by rewrite <- !list_fmap_compose in Hr. }
  split_and!.
  - apply (Forall_fmap fst (λ key, String.length key = 4%nat)).
    rewrite Hk. by repeat constructor.
  - rewrite Hk. compute_done.
  - intros p. by apply matching_shipped.
  - done.
  - revert Hs. generalize (seed tbl (prefix_of code)). intros refs Hs.
    repeat (apply elem_of_cons in Hs as [->|Hs]; [simpl; lia|]).
    by apply elem_of_nil in Hs.
  - by apply engine_keeps_all.
  - rewrite engine_keeps_all by done. apply sort_desc_Permutation.
Qed.

Lemma C10_single_rule_witness :
  rules FAULT_CODE_MAP = rules FAULT_CODE_MAP
  ∧ (engine FAULT_CODE_MAP (Some "p0301"%string) "shakes").2
    ≡ₚ scored FAULT_CODE_MAP (Some "p0301"%string) "shakes".
Proof.
  split; [reflexivity|].
  exact (proj2 (proj2 (proj2 (proj2 (proj2 (proj2
    (C10_single_rule FAULT_CODE_MAP (Some "p0301"%string) "shakes" eq_refl))))))).
Defined.

(** * Further properties of the code *)

(** ** Fault codes and descriptions as text *)

Section Normalisation.

Implicit Types (s t pad : string) (c : ascii).

Lemma app_String c s t : String c s +:+ t = String c (s +:+ t).
Proof. done. Qed.

Lemma lower_upper_char c : Text.lower_char (Text.upper_char c) = Text.lower_char c.
Proof. by destruct c as [[] [] [] [] [] [] [] []]. Qed.

Lemma upper_lower_char c : Text.upper_char (Text.lower_char c) = Text.upper_char c.
Proof. by destruct c as [[] [] [] [] [] [] [] []]. Qed.

Lemma upper_upper_char c : Text.upper_char (Text.upper_char c) = Text.upper_char c.
Proof. by destruct c as [[] [] [] [] [] [] [] []]. Qed.

Lemma is_space_lower_char c : Text.is_space (Text.lower_char c) = Text.is_space c.
Proof. by destruct c as [[] [] [] [] [] [] [] []]. Qed.

Lemma is_space_upper_char c : Text.is_space (Text.upper_char c) = Text.is_space c.
Proof. by destruct c as [[] [] [] [] [] [] [] []]. Qed.

Lemma lower_upper s : Text.lower (Text.upper s) = Text.lower s.
Proof.
  induction s as [|c s IH]; [done|]. cbn [Text.upper Text.lower].
  by rewrite lower_upper_char, IH.
Qed.

Lemma upper_lower s : Text.upper (Text.lower s) = Text.upper s.
Proof.
  induction s as [|c s IH]; [done|]. cbn [Text.upper Text.lower].
  by rewrite upper_lower_char, IH.
Qed.

Lemma upper_upper s : Text.upper (Text.upper s) = Text.upper s.
Proof.
  induction s as [|c s IH]; [done|]. cbn [Text.upper].
  by rewrite upper_upper_char, IH.
Qed.

Lemma lstrip_lower s : Text.lstrip (Text.lower s) = Text.lower (Text.lstrip s).
Proof.
  induction s as [|c s IH]; [done|]. cbn [Text.lower Text.lstrip].
  rewrite is_space_lower_char. by destruct (Text.is_space c).
Qed.

Lemma rstrip_lower s : Text.rstrip (Text.lower s) = Text.lower (Text.rstrip s).
Proof.
  induction s as [|c s IH]; [done|]. cbn [Text.lower Text.rstrip].
  rewrite IH, is_space_lower_char.
  destruct (Text.rstrip s); [by destruct (Text.is_space c)|done].
Qed.

Lemma lstrip_upper s : Text.lstrip (Text.upper s) = Text.upper (Text.lstrip s).
Proof.
  induction s as [|c s IH]; [done|]. cbn [Text.upper Text.lstrip].
  rewrite is_space_upper_char. by destruct (Text.is_space c).
Qed.

Lemma rstrip_upper s : Text.rstrip (Text.upper s) = Text.upper (Text.rstrip s).
Proof.
  induction s as [|c s IH]; [done|]. cbn [Text.upper Text.rstrip].
  rewrite IH, is_space_upper_char.
  destruct (Text.rstrip s); [by destruct (Text.is_space c)|done].
Qed.

Lemma lstrip_pad pad s : Text.blank pad = true → Text.lstrip (pad +:+ s) = Text.lstrip s.
Proof.
  induction pad as [|c pad IH]; [done|]. cbn [Text.blank].
  intros [Hc Hp]%andb_true_iff. rewrite app_String. cbn [Text.lstrip].
  rewrite Hc. by apply IH.
Qed.

Lemma rstrip_blank pad : Text.blank pad = true → Text.rstrip pad = "".
Proof.
  induction pad as [|c pad IH]; [done|]. cbn [Text.blank Text.rstrip].
  intros [Hc Hp]%andb_true_iff. by rewrite (IH Hp), Hc.
Qed.

Lemma rstrip_pad s pad : Text.blank pad = true → Text.rstrip (s +:+ pad) = Text.rstrip s.
Proof.
  intros Hp. induction s as [|c s IH]; [by apply rstrip_blank|].
  rewrite app_String. cbn [Text.rstrip]. by rewrite IH.
Qed.

Lemma lstrip_app s pad :
  Text.blank pad = true → Text.rstrip (Text.lstrip (s +:+ pad)) = Text.rstrip (Text.lstrip s).
Proof.
  intros Hp. induction s as [|c s IH].
  - change ("" +:+ pad) with pad. by rewrite (lstrip_blank _ Hp).
  - rewrite app_String. cbn [Text.lstrip].
    destruct (Text.is_space c); [done|].
    rewrite <- app_String. by apply rstrip_pad.
Qed.

(** [strip] drops whitespace around a string and nothing else *)
Lemma strip_pad pad1 s pad2 :
  Text.blank pad1 = true → Text.blank pad2 = true →
  Text.strip (pad1 +:+ s +:+ pad2) = Text.strip s.
Proof.
  intros H1 H2. unfold Text.strip. rewrite (lstrip_pad _ _ H1).
  by apply lstrip_app.
Qed.

Lemma slice_to_upper n s : Text.slice_to n (Text.upper s) = Text.upper (Text.slice_to n s).
Proof.
  revert s. induction n as [|n IH]; intros [|c s]; try done.
  cbn [Text.upper Text.slice_to]. by rewrite IH.
Qed.

Lemma length_upper s : String.length (Text.upper s) = String.length s.
Proof. induction s as [|c s IH]; [done|]. cbn [Text.upper String.length]. by rewrite IH. Qed.

Lemma length_slice_to n s : (String.length (Text.slice_to n s) ≤ n)%nat.
Proof.
  revert s. induction n as [|n IH]; intros [|c s]; cbn [Text.slice_to String.length];
    try lia. specialize (IH s). lia.
Qed.

Lemma slice_to_all n s : (String.length s ≤ n)%nat → Text.slice_to n s = s.
Proof.
  revert s. induction n as [|n IH]; intros [|c s]; cbn [Text.slice_to String.length];
    try done; try lia. intros ?. rewrite IH; [done|lia].
Qed.

Lemma length_normalize code : (String.length (normalize code) ≤ 4)%nat.
Proof.
  unfold normalize. destruct (4 <=? _)%nat eqn:E; [apply length_slice_to|].
  apply Nat.leb_gt in E. lia.
Qed.

Lemma normalize_upper code : normalize (Text.upper code) = normalize code.
Proof.
  unfold normalize, Text.strip.
  by rewrite lstrip_upper, rstrip_upper, upper_upper.
Qed.

Lemma normalize_lower code : normalize (Text.lower code) = normalize code.
Proof.
  unfold normalize, Text.strip.
  by rewrite lstrip_lower, rstrip_lower, upper_lower.
Qed.

Lemma normalize_pad pad1 code pad2 :
  Text.blank pad1 = true → Text.blank pad2 = true →
  normalize (pad1 +:+ code +:+ pad2) = normalize code.
Proof. intros H1 H2. unfold normalize. by rewrite strip_pad. Qed.

Lemma is_ascii_upper s : Text.is_ascii (Text.upper s) = Text.is_ascii s.
Proof.
  induction s as [|c s IH]; [done|]. cbn [Text.upper Text.is_ascii].
  rewrite IH. f_equal. by destruct c as [[] [] [] [] [] [] [] []].
Qed.

Lemma is_ascii_lstrip s : Text.is_ascii s = true → Text.is_ascii (Text.lstrip s) = true.
Proof.
  induction s as [|c s IH]; [done|]. cbn [Text.lstrip Text.is_ascii].
  destruct (Text.is_space c); [|done]. intros [_ ?]%andb_true_iff. by apply IH.
Qed.

Lemma is_ascii_rstrip s : Text.is_ascii s = true → Text.is_ascii (Text.rstrip s) = true.
Proof.
  induction s as [|c s IH]; [done|]. cbn [Text.rstrip Text.is_ascii].
  intros [Hc Hs]%andb_true_iff. specialize (IH Hs).
  destruct (Text.rstrip s).
  - destruct (Text.is_space c); [done|]. cbn [Text.is_ascii]. by rewrite Hc.
  - cbn [Text.is_ascii] in *. by rewrite Hc.
Qed.

Lemma is_ascii_slice_to n s :
  Text.is_ascii s = true → Text.is_ascii (Text.slice_to n s) = true.
Proof.
  revert s. induction n as [|n IH]; intros [|c s]; try done.
  cbn [Text.slice_to Text.is_ascii]. intros [-> Hs]%andb_true_iff. by apply IH.
Qed.

(** the prefix of an ASCII code is ASCII *)
Lemma is_ascii_normalize code :
  Text.is_ascii code = true → Text.is_ascii (normalize code) = true.
Proof.
  intros H. unfold normalize, Text.strip.
  destruct (4 <=? _)%nat; [apply is_ascii_slice_to|];
    rewrite is_ascii_upper; by apply is_ascii_rstrip, is_ascii_lstrip.
Qed.

End Normalisation.

Section CodeMatching.

Implicit Types (tbl : Table) (code : option string) (desc : string).

(** the fault code matters through its prefix only *)
Lemma engine_prefix tbl code code' desc :
  prefix_of code = prefix_of code' → engine tbl code desc = engine tbl code' desc.
Proof. intros H. unfold engine, working. by rewrite H. Qed.

Lemma truthy_app pad1 s pad2 :
  Text.truthy s = true → Text.truthy (pad1 +:+ s +:+ pad2) = true.
Proof. destruct s; [done|]. intros _. by destruct pad1. Qed.

Lemma truthy_lower s : Text.truthy (Text.lower s) = Text.truthy s.
Proof. by destruct s. Qed.

Lemma truthy_upper s : Text.truthy (Text.upper s) = Text.truthy s.
Proof. by destruct s. Qed.

Lemma lower_lower s : Text.lower (Text.lower s) = Text.lower s.
Proof. by rewrite <- (lower_upper (Text.lower s)), upper_lower, lower_upper. Qed.

Lemma prefix_of_length code p :
  prefix_of code = Some p → (String.length p ≤ 4)%nat.
Proof.
  destruct code as [c|]; [|done]. unfold prefix_of.
  destruct (Text.truthy c); [|done]. intros [= <-]. apply length_normalize.
Qed.

Lemma length_slice_to_le n s :
  (String.length (Text.slice_to n s) ≤ String.length s)%nat.
Proof.
  revert s. induction n as [|n IH]; intros [|c s]; cbn [Text.slice_to String.length];
    try lia. specialize (IH s). lia.
Qed.

(** a cleaned code that starts with a key of four characters has that key as
    its prefix *)
Lemma normalize_key c key :
  String.length key = 4%nat →
  Text.startswith (Text.upper (Text.strip c)) key = true →
  prefix_of (Some c) = Some key.
Proof.
  intros Hk Hs. rewrite startswith_slice, Hk in Hs.
  apply String.eqb_eq in Hs.
  assert (normalize c = key) as Hn.
  { unfold normalize.
    pose proof (length_slice_to_le 4 (Text.upper (Text.strip c))) as Hl.
    rewrite Hs, Hk in Hl. by apply Nat.leb_le in Hl as ->. }
  unfold prefix_of. destruct c as [|a c]; [|by rewrite <- Hn].
  rewrite <- Hs in Hk. done.
Qed.

(** the entries a reference list of a rule points to *)
Lemma items_deref tbl fr k rule :
  tbl !! k = Some rule → deref (mkStore tbl fr) <$> items k rule = rule.2.
Proof.
  intros Hk. apply list_eq. intros i. unfold items.
  rewrite <- list_fmap_compose, list_lookup_fmap.
  destruct (decide (i < length rule.2)%nat) as [Hi|Hi].
  - rewrite lookup_seq_lt by done. cbn. unfold deref. cbn. rewrite Hk. cbn.
    by destruct (lookup_lt_is_Some_2 rule.2 i Hi) as [c ->].
  - rewrite lookup_seq_ge by lia. cbn. symmetry. apply lookup_ge_None. lia.
Qed.

(** the seed of a shipped key is its rule *)
Lemma seed_key tbl k rule :
  rules tbl = rules FAULT_CODE_MAP → tbl !! k = Some rule →
  seed tbl (Some rule.1) = items k rule ∧ String.length rule.1 = 4%nat
  ∧ rule.2 ≠ [].
Proof.
  destruct tbl as [|[k0 i0] [|[k1 i1] [|[k2 i2] [|[k3 i3] [|]]]]]; try done.
  intros [= -> H0 -> H1 -> H2 -> H3].
  destruct k as [|[|[|[|k]]]]; intros [= <-]; cbn [fst snd];
    (split_and!; [|done|by intros ->]);
    unfold seed; cbn [imap fst snd mjoin list_join compose];
    rewrite !startswith_slice; cbn; by rewrite ?app_nil_r.
Qed.

(** the parts of the ranked list are those of the working list, in order *)
Lemma scored_parts tbl code desc :
  sug_part <$> scored tbl code desc
  = (λ r, part (deref (candidates tbl (prefix_of code)).2 r))
      <$> (candidates tbl (prefix_of code)).1.
Proof.
  rewrite scored_unfold. unfold ranked. rewrite <- list_fmap_compose.
  assert ((working tbl code desc).1 = (candidates tbl (prefix_of code)).1)
    as -> by (by rewrite working_unfold).
  apply list_fmap_ext. intros i r Hr. cbn.
  apply list_elem_of_lookup_2 in Hr. rewrite (working_deref _ _ _ _ Hr).
  apply hits_text.
Qed.

Lemma engine_parts tbl code desc :
  rules tbl = rules FAULT_CODE_MAP →
  sug_part <$> (engine tbl code desc).2
  ≡ₚ (λ r, part (deref (candidates tbl (prefix_of code)).2 r))
       <$> (candidates tbl (prefix_of code)).1.
Proof.
  intros Hr. rewrite (engine_keeps_all _ _ _ Hr), <- (scored_parts tbl code desc).
  apply fmap_Permutation, sort_desc_Permutation.
Qed.

(** a prefix that is no shipped key seeds nothing *)
Lemma seed_unknown tbl code :
  rules tbl = rules FAULT_CODE_MAP →
  (∀ p, prefix_of code = Some p → p ∉ fst <$> FAULT_CODE_MAP) →
  seed tbl (prefix_of code) = [].
Proof.
  intros Hr Hp. rewrite (seed_rules _ _ _ Hr).
  destruct (prefix_of code) as [p|] eqn:E; [|done].
  pose proof (prefix_of_length _ _ E) as Hl. specialize (Hp p eq_refl).
  unfold seed, FAULT_CODE_MAP. cbn [imap fst snd mjoin list_join compose].
  rewrite !startswith_slice. cbn [String.length].
  rewrite (slice_to_all 4 p Hl).
  repeat match goal with
         | |- context [String.eqb p ?k] =>
             destruct (String.eqb_spec p k) as [->|]
         end; try done; exfalso; apply Hp; compute_done.
Qed.

Lemma fallback_used tbl code desc :
  rules tbl = rules FAULT_CODE_MAP →
  seed tbl (prefix_of code) = [] →
  (working tbl code desc).1 = Local <$> seq 0 3
  ∧ (engine tbl code desc).1 = tbl
  ∧ sug_part <$> (engine tbl code desc).2 ≡ₚ part <$> fallback.
Proof.
  intros Hr Hs. split_and!.
  - rewrite working_unfold. unfold candidates. by rewrite Hs.
  - by apply engine_fallback_frame.
  - rewrite (engine_parts _ _ _ Hr). unfold candidates. by rewrite Hs.
Qed.

End CodeMatching.

(** X1. A fault code of ASCII characters is read without regard to case or
    to whitespace around it: a non-empty code padded with ASCII whitespace,
    lower-cased or upper-cased gives the call the code itself gives. *)
Theorem X1_code_case_and_padding
  (tbl : Table) (c desc pad1 pad2 : string) :
  Text.is_ascii c = true →
  Text.truthy c = true → Text.blank pad1 = true → Text.blank pad2 = true →
  engine tbl (Some (pad1 +:+ c +:+ pad2)) desc = engine tbl (Some c) desc
  ∧ engine tbl (Some (Text.lower c)) desc = engine tbl (Some c) desc
  ∧ engine tbl (Some (Text.upper c)) desc = engine tbl (Some c) desc.
Proof.
  intros _ Hc H1 H2. split_and!; apply engine_prefix; unfold prefix_of.
  - by rewrite (truthy_app _ _ _ Hc), Hc, normalize_pad.
  - by rewrite truthy_lower, normalize_lower.
  - by rewrite truthy_upper, normalize_upper.
Qed.

Lemma X1_code_case_and_padding_witness :
  engine FAULT_CODE_MAP (Some "  p0301 "%string) "stalls"
  = engine FAULT_CODE_MAP (Some "p0301"%string) "stalls"
  ∧ engine FAULT_CODE_MAP (Some (Text.upper "p0301")) "stalls"
    = engine FAULT_CODE_MAP (Some "p0301"%string) "stalls".
Proof.
  pose proof (X1_code_case_and_padding FAULT_CODE_MAP "p0301" "stalls" "  " " "
                eq_refl eq_refl eq_refl eq_refl) as (H1 & _ & H3).
  split; [exact H1|exact H3].
Defined.

(** X2. A description of ASCII characters is read without regard to case:
    upper-casing or lower-casing it changes neither the suggestions nor what
    the call leaves in the table. *)
Theorem X2_description_case (tbl : Table) (code : option string) (desc : string) :
  Text.is_ascii desc = true →
  engine tbl code (Text.upper desc) = engine tbl code desc
  ∧ engine tbl code (Text.lower desc) = engine tbl code desc.
Proof.
  intros _. unfold engine, working. by rewrite lower_upper, lower_lower.
Qed.

Lemma X2_description_case_witness :
  Text.is_ascii "Rough Idle" = true
  ∧ engine FAULT_CODE_MAP (Some "P0300"%string) "ROUGH IDLE"
    = engine FAULT_CODE_MAP (Some "P0300"%string) "Rough Idle".
Proof.
  split; [reflexivity|].
  exact (proj1 (X2_description_case FAULT_CODE_MAP (Some "P0300"%string)
                  "Rough Idle" eq_refl)).
Defined.

(** X3. The prefix of a fault code of ASCII characters is made of ASCII
    characters, at most four, holds no lower-case letter, and is an initial
    segment of the stripped, upper-cased code. *)
Theorem X3_prefix_shape (c : string) :
  Text.is_ascii c = true →
  Text.is_ascii (normalize c) = true
  ∧ (String.length (normalize c) ≤ 4)%nat
  ∧ Text.upper (normalize c) = normalize c
  ∧ Text.startswith (Text.upper (Text.strip c)) (normalize c) = true.
Proof.
  intros Hc. split_and!.
  - by apply is_ascii_normalize.
  - apply length_normalize.
  - unfold normalize. destruct (4 <=? _)%nat.
    + by rewrite <- slice_to_upper, upper_upper.
    + apply upper_upper.
  - unfold normalize. generalize (Text.upper (Text.strip c)). intros s.
    rewrite startswith_slice.
    destruct (4 <=? String.length s)%nat eqn:E.
    + apply Nat.leb_le in E. apply String.eqb_eq.
      assert (String.length (Text.slice_to 4 s) = 4%nat) as ->.
      { revert E. generalize 4%nat. intros n. revert s.
        induction n as [|n IH]; intros [|a s]; cbn [Text.slice_to String.length];
          try done; try lia. intros ?. rewrite IH; [done|lia]. }
      done.
    + apply String.eqb_eq, slice_to_all. done.
Qed.

Lemma X3_prefix_shape_witness :
  Text.is_ascii "  p0171b  " = true
  ∧ normalize "  p0171b  " = "P017"%string
  ∧ (String.length (normalize "  p0171b  ") ≤ 4)%nat.
Proof.
  split; [reflexivity|]. split; [reflexivity|].
  exact (proj1 (proj2 (X3_prefix_shape "  p0171b  " eq_refl))).
Defined.

(** X4. A fault code whose stripped, upper-cased form starts with a key of
    the table falls under that rule, whatever follows the key: on a table
    with the shipped rules its prefix is the key, the working list is the
    rule's entries, the parts returned are the rule's parts, and every reason
    ends with the suffix made of the key. *)
Theorem X4_code_family
  (tbl : Table) (c desc : string) (k : nat) (rule : string * list Candidate) :
  rules tbl = rules FAULT_CODE_MAP →
  tbl !! k = Some rule →
  Text.startswith (Text.upper (Text.strip c)) rule.1 = true →
  prefix_of (Some c) = Some rule.1
  ∧ (working tbl (Some c) desc).1 = items k rule
  ∧ sug_part <$> (engine tbl (Some c) desc).2 ≡ₚ part <$> rule.2
  ∧ Forall (λ s, endswith (sug_reason s) (" (matched " +:+ rule.1 +:+ ")") = true)
           (engine tbl (Some c) desc).2.
Proof.
  intros Hr Hk Hs. destruct (seed_key tbl k rule Hr Hk) as (Hseed & Hlen & Hne).
  pose proof (normalize_key c rule.1 Hlen Hs) as Hp.
  assert (candidates tbl (prefix_of (Some c)) = (items k rule, mkStore tbl []))
    as Hc.
  { rewrite Hp. unfold candidates. rewrite Hseed. unfold items.
    destruct rule.2; [done|]. done. }
  split_and!.
  - done.
  - by rewrite working_unfold, Hc.
  - rewrite (engine_parts _ _ _ Hr), Hc. cbn [fst snd].
    transitivity (part <$> (deref (mkStore tbl []) <$> items k rule)).
    + by rewrite <- list_fmap_compose.
    + by rewrite (items_deref _ _ _ _ Hk).
  - apply engine_Forall. eapply Forall_impl; [apply scored_texts|]. cbn beta.
    intros s (r & _ & _ & ->). rewrite Hp. unfold matched.
    assert (Text.truthy rule.1 = true) as -> by (by destruct rule.1).
    apply endswith_app.
Qed.

Lemma X4_code_family_witness :
  sug_part <$> (engine FAULT_CODE_MAP (Some " p0306"%string) "no symptoms").2
  ≡ₚ ["Spark Plugs"; "Ignition Coils"; "Fuel Injectors"; "Vacuum Leak"]%string.
Proof.
  exact (proj1 (proj2 (proj2
    (X4_code_family FAULT_CODE_MAP " p0306" "no symptoms" 0
       ("P030"%string, [ mkCandidate "Spark Plugs" 0.6 "Engine misfire detected";
                  mkCandidate "Ignition Coils" 0.5 "Weak/no spark";
                  mkCandidate "Fuel Injectors" 0.35 "Fuel delivery issues";
                  mkCandidate "Vacuum Leak" 0.25 "Unmetered air causing lean" ])
       eq_refl eq_refl eq_refl)))).
Defined.

(** X5. A fault code of ASCII characters whose prefix is none of the keys
    gets the fallback list: on a table with the shipped rules nothing is seeded, the three
    fallback parts are returned, and the table is left as it was. *)
Theorem X5_unknown_code (tbl : Table) (code : option string) (desc : string) :
  rules tbl = rules FAULT_CODE_MAP →
  ascii_code code = true →
  (∀ p, prefix_of code = Some p → p ∉ fst <$> FAULT_CODE_MAP) →
  seed tbl (prefix_of code) = []
  ∧ (working tbl code desc).1 = Local <$> seq 0 3
  ∧ (engine tbl code desc).1 = tbl
  ∧ sug_part <$> (engine tbl code desc).2 ≡ₚ part <$> fallback.
Proof.
  intros Hr _ Hp. pose proof (seed_unknown tbl code Hr Hp) as Hs.
  split; [done|]. by apply fallback_used.
Qed.

Lemma X5_unknown_code_witness :
  (engine FAULT_CODE_MAP (Some "B1234"%string) "rough idle").1 = FAULT_CODE_MAP
  ∧ sug_part <$> (engine FAULT_CODE_MAP (Some "B1234"%string) "rough idle").2
    ≡ₚ ["Battery"; "Alternator"; "Spark Plugs"]%string.
Proof.
  assert (∀ p, prefix_of (Some "B1234"%string) = Some p
               → p ∉ fst <$> FAULT_CODE_MAP) as Hp.
  { intros p [= <-]. compute_done. }
  pose proof (X5_unknown_code FAULT_CODE_MAP (Some "B1234"%string) "rough idle"
                eq_refl eq_refl Hp) as (_ & _ & H1 & H2).
  split; [exact H1|exact H2].
Defined.

(** X6. A fault code of fewer than four characters, once stripped, matches
    no rule: the keys have four characters and the prefix must start with the
    key. The call returns the fallback parts and leaves the table as it
    was. *)
Theorem X6_short_code (tbl : Table) (c desc : string) :
  rules tbl = rules FAULT_CODE_MAP →
  (String.length (Text.strip c) < 4)%nat →
  seed tbl (prefix_of (Some c)) = []
  ∧ (engine tbl (Some c) desc).1 = tbl
  ∧ sug_part <$> (engine tbl (Some c) desc).2 ≡ₚ part <$> fallback.
Proof.
  intros Hr Hl.
  assert (seed tbl (prefix_of (Some c)) = []) as Hs.
  { apply seed_unknown; [done|]. intros p Hp Hin.
    assert (String.length p < 4)%nat as Hlp.
    { unfold prefix_of in Hp. destruct (Text.truthy c); [|done].
      injection Hp as <-. unfold normalize. rewrite length_upper.
      destruct (4 <=? _)%nat eqn:E; [apply Nat.leb_le in E; lia|].
      by rewrite length_upper. }
    revert Hlp. unfold FAULT_CODE_MAP in Hin. cbn in Hin.
    repeat (apply elem_of_cons in Hin as [->|Hin]; [cbn; lia|]).
    by apply elem_of_nil in Hin. }
  split; [done|]. by apply fallback_used.
Qed.

Lemma X6_short_code_witness :
  (engine FAULT_CODE_MAP (Some " P03 "%string) "hiss").1 = FAULT_CODE_MAP
  ∧ sug_part <$> (engine FAULT_CODE_MAP (Some " P03 "%string) "hiss").2
    ≡ₚ ["Battery"; "Alternator"; "Spark Plugs"]%string.
Proof.
  assert (String.length (Text.strip " P03 ") < 4)%nat as Hl
    by (by apply Nat.ltb_lt).
  pose proof (X6_short_code FAULT_CODE_MAP " P03 " "hiss" eq_refl Hl)
    as (_ & H1 & H2).
  split; [exact H1|exact H2].
Defined.

(** ** Ranking *)

Section RankingOrder.

Implicit Types (tbl : Table) (code : option string) (desc : string).

(** rounding half to even never reverses an order *)
Lemma round_half_even_mono (x y : Q) :
  x <= y → (round_half_even x <= round_half_even y)%Z.
Proof.
  unfold Qle, round_half_even. destruct x as [n1 d1], y as [n2 d2].
  cbn [Qnum Qden]. intros Hxy.
  pose proof (Z.div_mod n1 (Z.pos d1) ltac:(lia)) as E1.
  pose proof (Z.mod_pos_bound n1 (Z.pos d1) ltac:(lia)) as B1.
  pose proof (Z.div_mod n2 (Z.pos d2) ltac:(lia)) as E2.
  pose proof (Z.mod_pos_bound n2 (Z.pos d2) ltac:(lia)) as B2.
  set (q1 := (n1 / Z.pos d1)%Z) in *. set (r1 := (n1 mod Z.pos d1)%Z) in *.
  set (q2 := (n2 / Z.pos d2)%Z) in *. set (r2 := (n2 mod Z.pos d2)%Z) in *.
  set (D1 := Z.pos d1) in *. set (D2 := Z.pos d2) in *.
  assert (0 < D1)%Z by lia. assert (0 < D2)%Z by lia.
  assert (q1 <= q2)%Z as Hq.
  { destruct (Z_le_gt_dec q1 q2) as [|Hgt]; [done|exfalso].
    assert (D1 * D2 * (q2 + 1) <= D1 * D2 * q1)%Z
      by (apply Z.mul_le_mono_nonneg_l; nia).
    assert (r2 * D1 < D1 * D2)%Z by nia.
    assert (0 <= r1 * D2)%Z by nia.
    rewrite E1, E2 in Hxy. nia. }
  destruct (Z.eq_dec q1 q2) as [Heq|Hne].
  - assert (r1 * D2 <= r2 * D1)%Z by nia.
    destruct (Z.compare_spec (2 * r1) D1), (Z.compare_spec (2 * r2) D2);
      rewrite ?Heq; try (destruct (Z.even q2) eqn:Ev); try lia; try nia.
  - assert (q1 + 1 <= q2)%Z by lia.
    destruct (Z.compare_spec (2 * r1) D1), (Z.compare_spec (2 * r2) D2);
      repeat (destruct (Z.even _)); lia.
Qed.

Lemma round_3_mono (x y : Q) : x <= y → round x 3 <= round y 3.
Proof.
  intros Hxy. unfold round.
  change (Pos.pow 10 (Pos.of_nat 3)) with 1000%positive.
  assert (x * inject_Z 1000 <= y * inject_Z 1000) as H.
  { apply Qmult_le_compat_r; [done|]. by vm_compute. }
  apply round_half_even_mono in H. unfold Qle. cbn [Qnum Qden]. lia.
Qed.

(** X7. Ties keep their order of arrival. On a table with the shipped
    rules, the suggestions of any one likelihood are returned in the order of
    the working list: table order within a rule, Battery, Alternator, Spark
    Plugs for the fallback list. *)
Theorem X7_ties_keep_order
  (tbl : Table) (code : option string) (desc : string) (q : Q) :
  rules tbl = rules FAULT_CODE_MAP →
  List.filter (λ s, Qeq_bool (likelihood s) q) (engine tbl code desc).2
  = List.filter (λ s, Qeq_bool (likelihood s) q) (scored tbl code desc).
Proof. intros Hr. rewrite (engine_keeps_all _ _ _ Hr). apply sort_desc_stable. Qed.

Lemma X7_ties_keep_order_witness :
  sug_part <$> List.filter (λ s, Qeq_bool (likelihood s) 0.25)
                 (engine FAULT_CODE_MAP (Some "P0171"%string) "hiss and stalls").2
  = ["O2 Sensor (Upstream)"; "Fuel Pump/Filter"]%string.
Proof.
  rewrite (X7_ties_keep_order FAULT_CODE_MAP (Some "P0171"%string)
             "hiss and stalls" 0.25 eq_refl).
  reflexivity.
Defined.

(** X8. The likelihood follows the capped score: of two candidates of one
    call, the one whose boosted base score, capped between 0 and 1, is not
    larger gets a likelihood that is not larger. *)
Theorem X8_likelihood_follows_score
  (tbl : Table) (code : option string) (desc : string)
  (i j : nat) (r1 r2 : ref) (s1 s2 : Suggestion) :
  (working tbl code desc).1 !! i = Some r1 →
  (working tbl code desc).1 !! j = Some r2 →
  scored tbl code desc !! i = Some s1 →
  scored tbl code desc !! j = Some s2 →
  clamp (base (deref (working tbl code desc).2 r1))
  <= clamp (base (deref (working tbl code desc).2 r2)) →
  likelihood s1 <= likelihood s2.
Proof.
  intros H1 H2. rewrite scored_unfold. unfold ranked.
  rewrite !list_lookup_fmap, H1, H2. cbn. intros [= <-] [= <-] Hle. cbn.
  apply round_3_mono. unfold Qdiv. apply Qmult_le_compat_r; [done|].
  apply Qinv_le_0_compat, Qlt_le_weak, total_bounds.
Qed.

Lemma X8_likelihood_follows_score_witness :
  ∃ s1 s2,
    scored FAULT_CODE_MAP (Some "P0300"%string) "rough idle" !! 1%nat = Some s1
    ∧ scored FAULT_CODE_MAP (Some "P0300"%string) "rough idle" !! 0%nat = Some s2
    ∧ likelihood s1 <= likelihood s2.
Proof.
  eexists _, _. split; [reflexivity|]. split; [reflexivity|].
  refine (X8_likelihood_follows_score FAULT_CODE_MAP (Some "P0300"%string)
            "rough idle" 1 0 (Shared 0 1) (Shared 0 0) _ _
            eq_refl eq_refl eq_refl eq_refl _).
  by vm_compute.
Defined.

End RankingOrder.

(** ** What a call leaves in the table *)

Section Drift.

Implicit Types (tbl : Table) (code : option string) (desc : string) (st : store).

Lemma bump_other k s b st :
  (∀ i, s ≠ Shared k i) → table (bump s b st) !! k = table st !! k.
Proof.
  destruct s as [k' i'|i']; [|done]. intros Hne. cbn [bump table].
  apply list_lookup_alter_ne. intros ->. by apply (Hne i').
Qed.

Lemma boost_all_other hint refs st k :
  Forall (λ s, ∀ i, s ≠ Shared k i) refs →
  table (boost_all hint refs st) !! k = table st !! k.
Proof.
  unfold boost_all. intros Hrefs. revert st.
  induction Hrefs as [|s refs Hs _ IH]; intros st; [done|].
  cbn [fold_left]. rewrite IH.
  destruct (targets _ _); [by apply bump_other|done].
Qed.

Lemma apply_hints_other hints desc refs st k :
  Forall (λ s, ∀ i, s ≠ Shared k i) refs →
  table (apply_hints hints desc refs st) !! k = table st !! k.
Proof.
  unfold apply_hints. intros Hrefs. revert st.
  induction hints as [|h hints IH]; intros st; [done|].
  cbn [fold_left]. rewrite IH.
  destruct (fires _ _); [by apply boost_all_other|done].
Qed.

Lemma quiet_Forall desc (hints : list Hint) :
  Forall (λ h, Forall (λ k, Text.contains k desc = false) (keywords h)) hints →
  Forall (λ h, fires desc h = false) hints.
Proof.
  intros H. eapply Forall_impl; [exact H|]. cbn beta. intros h Hq.
  unfold fires.
  induction Hq as [|k ks Hk _ IH]; [done|]. cbn [existsb]. by rewrite Hk, IH.
Qed.

Lemma boosts_nonneg (hints : list Hint) desc c :
  Forall (λ h, 0 <= boost h) hints → 0 <= boosts hints desc c.
Proof.
  intros Hh. unfold boosts. apply sum_nonneg, Forall_fmap, Forall_forall.
  intros h [_ Hin]%list_elem_of_filter. rewrite Forall_forall in Hh.
  by apply Hh.
Qed.

(** one call never lowers a base score of the table *)
Lemma engine_base_grows tbl code desc k i :
  base (deref (mkStore tbl []) (Shared k i))
  <= base (deref (mkStore (engine tbl code desc).1 []) (Shared k i)).
Proof.
  rewrite engine_unfold. cbn [fst].
  change (deref (mkStore (table (working tbl code desc).2) []) (Shared k i))
    with (deref (working tbl code desc).2 (Shared k i)).
  rewrite working_unfold. cbn [snd].
  destruct (candidates tbl (prefix_of code)) as [refs st] eqn:E.
  apply candidates_settled in E as (_ & Hnd & _ & Ht & _). cbn [fst snd].
  change (deref (mkStore tbl []) (Shared k i))
    with (default dangling (tbl !! k ≫= λ rule, rule.2 !! i)).
  rewrite <- Ht.
  change (default dangling (table st !! k ≫= λ rule, rule.2 !! i))
    with (deref st (Shared k i)).
  unfold deref. rewrite (apply_hints_lookup _ _ _ _ _ Hnd).
  destruct (decide _); [|apply Qle_refl].
  destruct (lookup_ref st (Shared k i)) as [c|]; [|apply Qle_refl].
  change (base c <= base (hits KEYWORD_HINTS (Text.lower desc) c)).
  pose proof (hits_base KEYWORD_HINTS (Text.lower desc) c) as He.
  assert (0 <= boosts KEYWORD_HINTS (Text.lower desc) c) as Hb.
  { apply boosts_nonneg. repeat constructor; by vm_compute. }
  lra.
Qed.

(** X9. A call touches the matched rule only: for a fault code of ASCII
    characters, a rule whose key the prefix does not start with comes out of
    the call as it went in, on any table and whatever the description. *)
Theorem X9_other_rules_untouched
  (tbl : Table) (code : option string) (desc : string)
  (k : nat) (rule : string * list Candidate) :
  tbl !! k = Some rule →
  ascii_code code = true →
  (∀ p, prefix_of code = Some p → Text.startswith p rule.1 = false) →
  (engine tbl code desc).1 !! k = Some rule.
Proof.
  intros Hk _ Hp. rewrite engine_unfold, working_unfold. cbn [fst snd].
  destruct (candidates tbl (prefix_of code)) as [refs st] eqn:E.
  apply candidates_settled in E as (_ & _ & _ & Ht & Hfb & Hseed).
  cbn [fst snd]. rewrite apply_hints_other; [by rewrite Ht|].
  destruct (seed tbl (prefix_of code)) as [|r0 rs] eqn:Es.
  - destruct (Hfb eq_refl) as [-> _]. by repeat constructor.
  - rewrite (Hseed ltac:(done)). apply Forall_forall. intros r Hr i ->.
    rewrite <- Es in Hr. destruct (prefix_of code) as [p|] eqn:Ep;
      [|by apply elem_of_nil in Hr].
    apply elem_of_seed in Hr as (k' & i' & rule' & [= <- <-] & Hk' & _ & Hs).
    rewrite Hk in Hk'. injection Hk' as <-. by rewrite (Hp p eq_refl) in Hs.
Qed.

Lemma X9_other_rules_untouched_witness :
  (engine FAULT_CODE_MAP (Some "P0300"%string) "rough idle and a hiss").1 !! 1%nat
  = FAULT_CODE_MAP !! 1%nat.
Proof.
  refine (X9_other_rules_untouched FAULT_CODE_MAP (Some "P0300"%string)
            "rough idle and a hiss" 1 _ eq_refl eq_refl _).
  by intros p [= <-].
Defined.

(** X10. A call on whose description, of ASCII characters, no keyword
    occurs is pure: it leaves
    the table as it found it, so the same call made again returns the same
    suggestions. *)
Theorem X10_quiet_call_is_pure (tbl : Table) (code : option string) (desc : string) :
  Text.is_ascii desc = true →
  Forall (λ h, Forall (λ k, Text.contains k (Text.lower desc) = false) (keywords h))
         KEYWORD_HINTS →
  (engine tbl code desc).1 = tbl
  ∧ engine (engine tbl code desc).1 code desc = engine tbl code desc.
Proof.
  intros _ Hq%quiet_Forall.
  pose proof (engine_quiet_frame tbl code desc Hq) as Hf.
  split; [done|]. by rewrite Hf.
Qed.

Lemma X10_quiet_call_is_pure_witness :
  engine (engine FAULT_CODE_MAP (Some "P0420"%string) "check engine light").1
         (Some "P0420"%string) "check engine light"
  = engine FAULT_CODE_MAP (Some "P0420"%string) "check engine light".
Proof.
  assert (Forall (λ h, Forall (λ k, Text.contains k (Text.lower "check engine light")
                                    = false) (keywords h))
                 KEYWORD_HINTS) as H by (repeat constructor).
  exact (proj2 (X10_quiet_call_is_pure FAULT_CODE_MAP (Some "P0420"%string)
                  "check engine light" eq_refl H)).
Defined.

(** X11. Whatever calls were made since the table was loaded, it holds the
    shipped keys, with the shipped parts and reasons in the shipped order:
    base scores are all that calls change. *)
Theorem X11_only_base_scores_change (tbl : Table) :
  reachable tbl → texts tbl = texts FAULT_CODE_MAP.
Proof. induction 1 as [|tbl code desc _ IH]; [done|]. by rewrite engine_texts. Qed.

Lemma X11_only_base_scores_change_witness :
  texts (engine (engine FAULT_CODE_MAP (Some "P0171"%string) "hiss").1
           (Some "P0300"%string) "shakes and stalls").1
  = texts FAULT_CODE_MAP.
Proof.
  apply X11_only_base_scores_change. do 2 apply reachable_call.
  apply reachable_start.
Defined.

(** X12. Base scores only go up: no call lowers the base score of an entry
    of the table, so every table the service can hold has base scores at
    least as large as the shipped ones. *)
Theorem X12_base_scores_never_fall :
  (∀ (tbl : Table) (code : option string) (desc : string) (k i : nat),
     base (deref (mkStore tbl []) (Shared k i))
     <= base (deref (mkStore (engine tbl code desc).1 []) (Shared k i)))
  ∧ (∀ (tbl : Table) (k i : nat),
       reachable tbl →
       base (deref (mkStore FAULT_CODE_MAP []) (Shared k i))
       <= base (deref (mkStore tbl []) (Shared k i))).
Proof.
  split; [apply engine_base_grows|].
  intros tbl k i. induction 1 as [|tbl code desc _ IH]; [apply Qle_refl|].
  eapply Qle_trans; [exact IH|apply engine_base_grows].
Qed.

Lemma X12_base_scores_never_fall_witness :
  base (deref (mkStore FAULT_CODE_MAP []) (Shared 0 0))
  <= base (deref (mkStore (engine FAULT_CODE_MAP (Some "P0300"%string) "shakes").1
                          []) (Shared 0 0)).
Proof.
  apply (proj2 X12_base_scores_never_fall). apply reachable_call, reachable_start.
Defined.

End Drift.

(** ** The endpoints and the gateway *)

Section Gateway.

Context {DB Value : Type}.
Variable create_document :
  string -> DiagnosisRecord -> DB -> DB * outcome string.
Variable get_documents :
  string -> list (string * Value) -> Z -> DB
  -> DB * outcome (list (list (string * Value))).
Variable str : Value -> Value.

Lemma stringify_id_keys (doc : list (string * Value)) :
  fst <$> stringify_id str doc = fst <$> doc.
Proof.
  unfold stringify_id. rewrite <- list_fmap_compose. apply list_fmap_ext.
  intros i [k v] _. cbn. by destruct (String.eqb k "_id").
Qed.

Lemma stringify_id_other (doc : list (string * Value)) k v :
  k ≠ "_id"%string → (k, v) ∈ stringify_id str doc ↔ (k, v) ∈ doc.
Proof.
  intros Hk. unfold stringify_id. rewrite list_elem_of_fmap. split.
  - intros ([k' v'] & E & Hin). cbn in E.
    destruct (String.eqb_spec k' "_id") as [->|]; by simplify_eq.
  - intros Hin. exists (k, v). split; [|done]. cbn.
    by destruct (String.eqb_spec k "_id").
Qed.

Lemma stringify_id_absent (doc : list (string * Value)) :
  "_id"%string ∉ fst <$> doc → stringify_id str doc = doc.
Proof.
  intros Hno. unfold stringify_id. rewrite <- (list_fmap_id doc) at 2.
  apply list_fmap_ext. intros i [k v] Hi. cbn.
  destruct (String.eqb_spec k "_id") as [->|]; [|done].
  exfalso. apply Hno, list_elem_of_fmap. exists ("_id"%string, v).
  split; [done|]. by eapply list_elem_of_lookup_2.
Qed.

(** X13. The diagnose endpoint answers whatever the gateway does: the
    response model accepts every suggestion of the engine, the response
    carries the very list handed to [create_document] and the id it returned
    (none when it raised), and the table and the database are left as the
    engine and the gateway left them. *)
Theorem X13_diagnose_answers (req : DiagnoseRequest) (tbl : Table) (db : DB) :
  let ranked := engine tbl (fault_code req) (description req) in
  let saved :=
    create_document "carissue"
      (mkRecord (name req) (model req) (fault_code req) (description req)
                ranked.2) db in
  diagnose create_document req tbl db
  = (ranked.1, saved.1,
     Returned (mkResponse ranked.2
                 match saved.2 with Returned i => Some i | Raised => None end)).
Proof.
  cbv zeta. unfold diagnose.
  pose proof (engine_validates tbl (fault_code req) (description req)) as Hv.
  destruct (engine tbl (fault_code req) (description req)) as [tbl' top].
  cbn [fst snd] in *. destruct (create_document _ _ db) as [db' saved].
  cbn [fst snd]. by rewrite Hv.
Qed.

(** X14. When [get_documents] returns, the history endpoint returns its
    documents, as many and in the same order, each with its keys in place;
    entries under other keys than [_id] are those of the stored document,
    and a document without that key comes back as it is. The database is
    left as [get_documents] left it. *)
Theorem X14_history_documents
  (limit : Z) (db : DB) (docs : list (list (string * Value))) :
  (get_documents "carissue" [] limit db).2 = Returned docs →
  let out := (history get_documents str limit db).2 in
  (history get_documents str limit db).1 = (get_documents "carissue" [] limit db).1
  ∧ length out = length docs
  ∧ ∀ i doc, docs !! i = Some doc →
      ∃ it, out !! i = Some it
            ∧ fst <$> it = fst <$> doc
            ∧ (∀ k v, k ≠ "_id"%string → (k, v) ∈ it ↔ (k, v) ∈ doc)
            ∧ ("_id"%string ∉ fst <$> doc → it = doc).
Proof.
  intros Hg. cbv zeta. unfold history.
  destruct (get_documents _ _ limit db) as [db' found]. cbn [snd] in Hg.
  subst found. cbn [fst snd]. split_and!; [done|by rewrite length_fmap|].
  intros i doc Hi. exists (stringify_id str doc). split_and!.
  - rewrite list_lookup_fmap. unfold Document. by rewrite Hi.
  - apply stringify_id_keys.
  - intros k v Hk. by apply stringify_id_other.
  - apply stringify_id_absent.
Qed.

End Gateway.

Lemma X14_history_documents_witness :
  let stored := [ [("_id", "507f1f77"); ("name", "Toyota")];
                  [("name", "Honda")] ]%string in
  (history (λ _ _ _ (db : unit), (db, Returned stored))
           (λ v, "str:" +:+ v) 20 ()).2
  = [ [("_id", "str:507f1f77"); ("name", "Toyota")]; [("name", "Honda")] ]%string
  ∧ length (history (λ _ _ _ (db : unit), (db, Returned stored))
                    (λ v, "str:" +:+ v) 20 ()).2 = 2%nat.
Proof.
  intros stored. split; [reflexivity|].
  exact (proj1 (proj2 (X14_history_documents (DB := unit) (Value := string)
                         (λ _ _ _ db, (db, Returned stored)) (λ v, "str:" +:+ v)
                         20 () stored eq_refl))).
Defined.

(** ** The status endpoint *)

Section StatusEndpoint.

Implicit Types (db : option Database) (getenv : string → option string).

(** X15. The two fields about the database URL and name report the
    environment and nothing else: whatever the handle is, they say whether
    DATABASE_URL and DATABASE_NAME are set to a non-empty string, so what the
    probe stored in them is never returned; the backend field is constant. *)
Theorem X15_status_reports_environment db getenv :
  let r := test_database db getenv in
  database_url r
  = Some (if env_set getenv "DATABASE_URL" then "✅ Set" else "❌ Not Set")%string
  ∧ database_name r
    = Some (if env_set getenv "DATABASE_NAME" then "✅ Set" else "❌ Not Set")%string
  ∧ database_url r ≠ Some "✅ Configured"%string
  ∧ database_url r ≠ None ∧ database_name r ≠ None
  ∧ backend r = "✅ Running"%string.
Proof.
  cbv zeta. unfold test_database. split_and!; try done.
  - cbn. by destruct (env_set getenv "DATABASE_URL").
  - destruct db as [[[| |] [|]]|]; cbn; done.
Qed.

(** X16. The collections listed are the first ten names the handle returns
    and never more than ten; the status is Connected exactly when there is a
    handle whose name can be read, and without it no collection is
    listed. *)
Theorem X16_status_connection db getenv :
  let r := test_database db getenv in
  (length (collections r) ≤ 10)%nat
  ∧ (∀ d names, db = Some d → (∀ msg, db_name d ≠ ReadRaises msg) →
       list_collection_names d = inr names →
       collections r = take 10 names
       ∧ database r = "✅ Connected & Working"%string)
  ∧ (connection_status r = "Connected"%string
     ↔ ∃ d, db = Some d ∧ ∀ msg, db_name d ≠ ReadRaises msg)
  ∧ (connection_status r ≠ "Connected"%string →
     connection_status r = "Not Connected"%string ∧ collections r = []).
Proof.
  cbv zeta. unfold test_database, probe. split_and!.
  - destruct db as [[[| |] [|names]]|]; cbn; try lia; rewrite length_take; lia.
  - intros d names -> Hn Hl. destruct d as [nm ls]. cbn in *. subst ls.
    by destruct nm; [| |by destruct (Hn msg)].
  - split.
    + destruct db as [[[| |] [|]]|]; cbn; try done;
        intros _; eexists; (split; [done|]); by intros msg'.
    + intros (d & -> & Hn). destruct d as [[| |msg] [|]]; cbn; try done;
        by destruct (Hn msg).
  - destruct db as [[[| |] [|]]|]; cbn; try done.
Qed.

Lemma X16_status_connection_witness :
  let d := mkDatabase (Holds "autodiag")
             (inr ("carissue"%string :: replicate 11 "system.views"%string)) in
  length (collections (test_database (Some d) (λ _, None))) = 10%nat
  ∧ database (test_database (Some d) (λ _, None)) = "✅ Connected & Working"%string.
Proof.
  intros d.
  destruct (proj1 (proj2 (X16_status_connection (Some d) (λ _, None)))
              d _ eq_refl ltac:(by intros msg) eq_refl) as [H1 H2].
  split; [by rewrite H1|exact H2].
Defined.

(** X17. The database field never shows the value it starts with, nor the
    one the probe stores first: without a handle it says the database is
    not initialized, with a handle it reports the listing or the text, cut
    at fifty characters, of what was raised (stated for a text of ASCII
    characters, which the model cuts where Python does). *)
Theorem X17_status_database_field db getenv :
  let r := test_database db getenv in
  database r ≠ "❌ Not Available"%string
  ∧ database r ≠ "✅ Available"%string
  ∧ (db = None → database r = "⚠️  Available but not initialized"%string)
  ∧ (∀ d msg, db = Some d → (∀ m, db_name d ≠ ReadRaises m) →
       list_collection_names d = inl msg →
       Text.is_ascii msg = true →
       database r = "⚠️  Connected but Error: " +:+ Text.slice_to 50 msg)
  ∧ (∀ d msg, db = Some d → db_name d = ReadRaises msg →
       Text.is_ascii msg = true →
       database r = "❌ Error: " +:+ Text.slice_to 50 msg).
Proof.
  cbv zeta. unfold test_database, probe. split_and!.
  - destruct db as [[[| |msg] [msg'|]]|]; cbn; try done;
      intros H; apply (f_equal (Text.slice_to 5)) in H; by vm_compute in H.
  - destruct db as [[[| |msg] [msg'|]]|]; cbn; try done;
      intros H; apply (f_equal (Text.slice_to 5)) in H; by vm_compute in H.
  - by intros ->.
  - intros d msg -> Hn Hl _. destruct d as [nm ls]. cbn in *. subst ls.
    by destruct nm; [| |by destruct (Hn msg0)].
  - intros d msg -> Hn _. destruct d as [nm ls]. cbn in *. by subst nm.
Qed.

End StatusEndpoint.

Lemma X17_status_database_field_witness :
  let d := mkDatabase Missing (inl "connection refused"%string) in
  database (test_database (Some d) (λ _, None))
  = "⚠️  Connected but Error: connection refused"%string.
Proof.
  intros d.
  exact (proj1 (proj2 (proj2 (proj2
           (X17_status_database_field (Some d) (λ _, None)))))
           d "connection refused"%string eq_refl ltac:(by intros m) eq_refl
           eq_refl).
Defined.
